(** * hans: command registry and dispatch engine ([hans/session.py])

    A shallow embedding of [CmdSession]: the registered command
    collections, the merged namespace [__cmds] rebuilt by [refresh], the
    token-wise resolver [parse], the dispatcher [handle], together with the
    error formatter of [hans/io.py].

    Python values that the engine shares or mutates are modelled with their
    identity: every [Command] object carries the address it lives at, and the
    token lists handed to and returned by [parse] live in a store of list
    objects.  Python [str] is modelled as a Rocq [string] of ASCII
    characters. *)

From Stdlib Require Import String Ascii List Bool Arith PeanoNat ZArith Lia.
Import ListNotations.
Open Scope string_scope.
Open Scope list_scope.

Set Warnings "-register-all".

(* ------------------------------------------------------------------ *)
(** ** Insertion-ordered dictionaries

    A Python [dict] keeps its keys in insertion order; [d[k] = v] updates an
    existing key in place and appends a new one. *)

Module Dict.

Section Ops.
Context {A : Type}.

(** [d.get(k)] *)
Fixpoint get (k : string) (d : list (string * A)) : option A :=
  match d with
  | [] => None
  | (k', v) :: rest => if String.eqb k k' then Some v else get k rest
  end.

(** [k in d] *)
Definition mem (k : string) (d : list (string * A)) : bool :=
  match get k d with Some _ => true | None => false end.

(** [d[k] = v] *)
Fixpoint set (k : string) (v : A) (d : list (string * A)) : list (string * A) :=
  match d with
  | [] => [(k, v)]
  | (k', v') :: rest =>
      if String.eqb k k' then (k', v) :: rest else (k', v') :: set k v rest
  end.

(** the dictionary left by [d.pop(k)] *)
Fixpoint pop (k : string) (d : list (string * A)) : list (string * A) :=
  match d with
  | [] => []
  | (k', v') :: rest =>
      if String.eqb k k' then rest else (k', v') :: pop k rest
  end.

(** the dictionary left by [d.setdefault(k, dflt)] *)
Definition setdefault (k : string) (dflt : A) (d : list (string * A))
  : list (string * A) :=
  match get k d with Some _ => d | None => set k dflt d end.

Definition keys (d : list (string * A)) : list string := map fst d.
Definition values (d : list (string * A)) : list A := map snd d.
End Ops.

End Dict.

(* ------------------------------------------------------------------ *)
(** ** Commands and command trees *)

(** Addresses of Python objects. *)
Definition loc := nat.

(** Modelled from the spec: the class [hans.cmd.Command] is imported by
    [session.py] but its module is not part of the sources.  The spec gives a
    Command a primary name, its aliases, an availability predicate and an
    invocation; the last two are arbitrary Python callables and are supplied
    as parameters of the dispatcher below, selected by [behaviour].  A
    Command is a leaf: it offers none of the mapping operations
    ([items], [setdefault], item assignment). *)
Record Command : Type := mkCommand {
  name : string;
  aliases : list string;
  behaviour : nat
}.

(** [Dict[str, Union[Command, Dict[str, Any]]]]: a value stored in a command
    dictionary is a reference to a Command object (its address and the
    immutable object found there) or a nested dictionary. *)
Inductive value : Type :=
| VCmd (id : loc) (c : Command)
| VDict (items : list (string * value)).

Definition dict := list (string * value).

(** [isinstance(v, dict)] and [isinstance(v, Command)] *)
Definition is_dict (v : value) : bool :=
  match v with VDict _ => true | VCmd _ _ => false end.
Definition is_command (v : value) : bool :=
  match v with VCmd _ _ => true | VDict _ => false end.

(** [NestedDict] of prompt_toolkit: the completion projection. *)
Inductive nested : Type :=
| NNone
| NDict (items : list (string * nested)).

(** Exceptions that travel through the engine. *)
Inductive exn : Type :=
| KeyError (msg : string)
| TypeError (msg : string)
| ValueError (msg : string)
| AttributeError (msg : string)
| SystemExit (code : Z)
| KeyboardInterrupt
| OtherError (msg : string).

Definition is_KeyError (e : exn) : bool :=
  match e with KeyError _ => true | _ => false end.
Definition is_SystemExit (e : exn) : bool :=
  match e with SystemExit _ => true | _ => false end.

(** [str(e)] for the exceptions formatted by [handle]. *)
Definition str_exn (e : exn) : string :=
  match e with
  | KeyError m => "'" ++ m ++ "'"
  | TypeError m | ValueError m | AttributeError m | OtherError m => m
  | SystemExit c => ""
  | KeyboardInterrupt => ""
  end.

(* ------------------------------------------------------------------ *)
(** ** Strings: [str.strip], [str.split], [str.join] *)

(** [c.isspace()] on ASCII characters: TAB, LF, VT, FF, CR, the four
    separators FS, GS, RS, US, and the space. *)
Definition is_space (c : ascii) : bool :=
  let n := nat_of_ascii c in
  (((9 <=? n) && (n <=? 13)) || ((28 <=? n) && (n <=? 32)))%nat.

Definition is_empty (s : string) : bool :=
  match s with EmptyString => true | String _ _ => false end.

Fixpoint lstrip (s : string) : string :=
  match s with
  | EmptyString => EmptyString
  | String c rest => if is_space c then lstrip rest else s
  end.

Definition reverse (s : string) : string :=
  string_of_list_ascii (rev (list_ascii_of_string s)).

Definition rstrip (s : string) : string := reverse (lstrip (reverse s)).

(** [s.strip()] *)
Definition strip (s : string) : string := lstrip (rstrip s).

(** [s.split()]: the maximal runs of non-whitespace characters; [cur] is the
    run being read. *)
Fixpoint split_from (s : string) (cur : string) : list string :=
  match s with
  | EmptyString => if is_empty cur then [] else [cur]
  | String c rest =>
      if is_space c
      then (if is_empty cur then split_from rest EmptyString
            else cur :: split_from rest EmptyString)
      else split_from rest (cur ++ String c EmptyString)
  end.

Definition split (s : string) : list string := split_from s EmptyString.

(** [sep.join(l)] *)
Definition join (sep : string) (l : list string) : string := String.concat sep l.

(** The double-quote character, as a string. *)
Definition dquote : string := String (ascii_of_nat 34) EmptyString.

(* ------------------------------------------------------------------ *)
(** ** [hans/io.py]: message formatting *)

Module io.

(** [\w] on ASCII characters. *)
Definition is_word (c : ascii) : bool :=
  let n := nat_of_ascii c in
  (((48 <=? n) && (n <=? 57)) || ((65 <=? n) && (n <=? 90))
   || ((97 <=? n) && (n <=? 122)) || (n =? 95))%nat.

(** [re.match(r'^\w+$', s)]: one or more word characters up to the end of
    the string, or up to a final newline. *)
Fixpoint word_tail (s : string) : bool :=
  match s with
  | EmptyString => true
  | String c rest =>
      if is_word c then word_tail rest
      else (nat_of_ascii c =? 10)%nat && is_empty rest
  end.

Definition rich_match (s : string) : bool :=
  match s with
  | EmptyString => false
  | String c rest => is_word c && word_tail rest
  end.

(** [colorama.Style.RESET_ALL] *)
Definition RESET_ALL : string := String (ascii_of_nat 27) "[0m".

Definition or_empty (color : option string) : string :=
  match color with Some c => c | None => EmptyString end.

(** [format(msg, color, symbol)] *)
Definition format (msg : string) (color : option string) (symbol : string)
  : string :=
  let rich_color := rich_match (or_empty color) in
  (if rich_color then "[" ++ or_empty color ++ "]" else or_empty color)
  ++ "[bold][" ++ symbol ++ "][/bold] " ++ msg
  ++ (if rich_color then "[/" ++ or_empty color ++ "]"
      else match color with Some _ => RESET_ALL | None => EmptyString end).

(** [fe = partial(format, color='red', symbol='-')] *)
Definition fe (msg : string) : string := format msg (Some "red") "-".

End io.

(* ------------------------------------------------------------------ *)
(** ** The session and the world it runs in *)

(** The fields of a [CmdSession] that the engine maintains.  [__cmds] is a
    class attribute, one dictionary shared by every session of the process;
    the model has one session.

    Modelled from the spec: the class [hans.completer.CmdCompleter] is not
    part of the sources; its [update(projection)] receives the completion
    projection, kept here in the field [completer]. *)
Record CmdSession : Type := mkSession {
  cmds : list (string * dict);            (* registered collections *)
  __cmds : dict;                          (* merged namespace *)
  compl_dict : list (string * nested);    (* completion projection *)
  completer : list (string * nested)      (* options last given to
                                             [completer.update] *)
}.

(** The Python heap and the outside world, as far as the engine touches
    them. *)
Record World : Type := mkWorld {
  session : CmdSession;
  next_id : loc;                        (* address of the next Command object *)
  lists : list (loc * list string);     (* the list objects *)
  output : list string;                 (* strings handed to [print] by [io.e] *)
  calls : list (Command * list string)  (* invocations performed, in order *)
}.

Definition set_session (s : CmdSession) (w : World) : World :=
  mkWorld s (next_id w) (lists w) (output w) (calls w).
Definition set_next_id (n : loc) (w : World) : World :=
  mkWorld (session w) n (lists w) (output w) (calls w).
Definition set_lists (h : list (loc * list string)) (w : World) : World :=
  mkWorld (session w) (next_id w) h (output w) (calls w).
Definition set_output (o : list string) (w : World) : World :=
  mkWorld (session w) (next_id w) (lists w) o (calls w).
Definition set_calls (c : list (Command * list string)) (w : World) : World :=
  mkWorld (session w) (next_id w) (lists w) (output w) c.

(** *** The store of list objects *)

Module Store.
Fixpoint get {A : Type} (l : loc) (h : list (loc * A)) : option A :=
  match h with
  | [] => None
  | (l', x) :: rest => if Nat.eqb l l' then Some x else get l rest
  end.

Fixpoint set {A : Type} (l : loc) (x : A) (h : list (loc * A))
  : list (loc * A) :=
  match h with
  | [] => [(l, x)]
  | (l', x') :: rest =>
      if Nat.eqb l l' then (l', x) :: rest else (l', x') :: set l x rest
  end.

(** An address that holds no object yet. *)
Definition fresh {A : Type} (h : list (loc * A)) : loc :=
  S (fold_right Nat.max 0 (map fst h)).
End Store.

(** *** Computations: state passing with exceptions *)

Inductive outcome (A : Type) : Type :=
| Ret (a : A)
| Raise (e : exn).
Arguments Ret {A} a.
Arguments Raise {A} e.

Definition M (A : Type) : Type := World -> outcome A * World.

Definition ret {A : Type} (a : A) : M A := fun w => (Ret a, w).
Definition raise {A : Type} (e : exn) : M A := fun w => (Raise e, w).
Definition bind {A B : Type} (m : M A) (f : A -> M B) : M B :=
  fun w =>
    match m w with
    | (Ret a, w') => f a w'
    | (Raise e, w') => (Raise e, w')
    end.

Notation "x <- m ;; k" := (bind m (fun x => k))
  (at level 61, m at next level, right associativity).
Notation "m ;;; k" := (bind m (fun _ => k))
  (at level 61, right associativity).

(** Modelled from the spec: [print] in [io.py] is [rich.print], imported in
    place of the builtin and not part of the sources; the spec has the engine
    hand formatted strings to a rendering collaborator.  [rich.print] reads
    console markup in the string it is given and raises [MarkupError] on a
    closing tag that matches no open tag; [markup_error] is the exception it
    raises on a string, if any. *)
Class Console : Type := {
  markup_error : string -> option exn
}.

(** [io.e(msg)]: print the message formatted as an error; the exception of
    the console, if any, is raised and nothing is printed. *)
Definition io_e {console : Console} (msg : string) : M unit :=
  fun w =>
    match markup_error (io.fe msg) with
    | Some e => (Raise e, w)
    | None => (Ret tt, set_output (output w ++ [io.fe msg]) w)
    end.

(* ------------------------------------------------------------------ *)
(** ** Building the merged namespace *)

(** [copy.deepcopy(x)]: every dictionary is rebuilt and every Command object
    is copied to a new address; [memo] maps the objects already copied during
    this call to their copies, so an object met twice is copied once.  [n] is
    the next free address. *)
Fixpoint deepcopy (x : value) (memo : list (loc * loc)) (n : loc)
  : value * list (loc * loc) * loc :=
  match x with
  | VCmd id c =>
      match Store.get id memo with
      | Some id' => (VCmd id' c, memo, n)
      | None => (VCmd n c, Store.set id n memo, S n)
      end
  | VDict items =>
      let '(items', memo', n') :=
        (fix copy_items (items : list (string * value))
             (memo : list (loc * loc)) (n : loc)
           : list (string * value) * list (loc * loc) * loc :=
           match items with
           | [] => ([], memo, n)
           | (k, v) :: rest =>
               let '(v', memo1, n1) := deepcopy v memo n in
               let '(rest', memo2, n2) := copy_items rest memo1 n1 in
               ((k, v') :: rest', memo2, n2)
           end) items memo n in
      (VDict items', memo', n')
  end.

(** The loops of [__build_aliases]: for every Command among the values,
    [__cmds[a] = v] for each of its aliases. *)
Definition add_aliases (__cmds : dict) (v : value) : dict :=
  match v with
  | VCmd _ c => fold_left (fun acc a => Dict.set a v acc) (aliases c) __cmds
  | VDict _ => __cmds
  end.

Definition expand_aliases (__cmds : dict) : dict :=
  fold_left add_aliases (Dict.values __cmds) __cmds.

Definition items_of (v : value) : dict :=
  match v with VDict items => items | VCmd _ _ => [] end.

(** [__build_aliases(cmds)], allocating from address [n]. *)
Definition build_aliases (cmds : dict) (n : loc) : dict * loc :=
  let '(__cmds, _, n') := deepcopy (VDict cmds) [] n in
  (expand_aliases (items_of __cmds), n').

(** [deep_merge(a, b)]: the value [a] has become and the exception raised, if
    any.  [a] is a Command when [setdefault] found one under the key; a
    Command has neither [setdefault] nor item assignment. *)
Fixpoint deep_merge (a : value) (b : value) {struct b} : value * option exn :=
  match b with
  | VCmd _ _ =>
      (a, Some (AttributeError "'Command' object has no attribute 'items'"))
  | VDict items =>
      (fix loop (a : value) (items : list (string * value)) {struct items}
         : value * option exn :=
         match items with
         | [] => (a, None)
         | (k, v) :: rest =>
             match v with
             | VDict _ =>
                 match a with
                 | VCmd _ _ =>
                     (a, Some (AttributeError
                                 "'Command' object has no attribute 'setdefault'"))
                 | VDict da =>
                     let da1 := Dict.setdefault k (VDict []) da in
                     let sub := match Dict.get k da1 with
                                | Some s => s
                                | None => VDict []
                                end in
                     let '(sub', e) := deep_merge sub v in
                     let a' := VDict (Dict.set k sub' da1) in
                     match e with
                     | Some x => (a', Some x)
                     | None => loop a' rest
                     end
                 end
             | VCmd _ _ =>
                 match a with
                 | VCmd _ _ =>
                     (a, Some (TypeError
                                 "'Command' object does not support item assignment"))
                 | VDict da => loop (VDict (Dict.set k v da)) rest
                 end
             end
         end) a items
  end.

(** [__build_completer(compl, cmds)]: the dictionary [compl] has become. *)
Fixpoint build_completer (compl : list (string * nested)) (cmds : value)
  {struct cmds} : list (string * nested) :=
  match cmds with
  | VCmd _ _ => compl
  | VDict items =>
      (fix loop (compl : list (string * nested))
           (items : list (string * value)) {struct items}
         : list (string * nested) :=
         match items with
         | [] => compl
         | (k, v) :: rest =>
             match v with
             | VCmd _ _ => loop (Dict.set k NNone compl) rest
             | VDict _ =>
                 loop (Dict.set k (NDict (build_completer [] v)) compl) rest
             end
         end) compl items
  end.

(** [completer_dict()] *)
Definition completer_dict (s : CmdSession) : list (string * nested) :=
  build_completer [] (VDict (__cmds s)).

(** The loop of [refresh]: merge the alias-expanded copy of every
    collection into the namespace [acc]. *)
Fixpoint merge_all (vs : list dict) (acc : value) (n : loc)
  : value * option exn * loc :=
  match vs with
  | [] => (acc, None, n)
  | v :: rest =>
      let '(b, n') := build_aliases v n in
      match deep_merge acc (VDict b) with
      | (acc', None) => merge_all rest acc' n'
      | (acc', Some e) => (acc', Some e, n')
      end
  end.

Definition set___cmds (d : dict) (s : CmdSession) : CmdSession :=
  mkSession (cmds s) d (compl_dict s) (completer s).
Definition set_cmds (r : list (string * dict)) (s : CmdSession) : CmdSession :=
  mkSession r (__cmds s) (compl_dict s) (completer s).
Definition set_compl (c : list (string * nested)) (s : CmdSession)
  : CmdSession :=
  mkSession (cmds s) (__cmds s) c c.

(** [refresh()] *)
Definition refresh : M unit := fun w =>
  let s := session w in
  let '(acc, e, n') := merge_all (Dict.values (cmds s)) (VDict []) (next_id w) in
  let s1 := set___cmds (items_of acc) s in
  match e with
  | Some x => (Raise x, set_next_id n' (set_session s1 w))
  | None =>
      (Ret tt, set_next_id n' (set_session (set_compl (completer_dict s1) s1) w))
  end.

(** [extend(coll_name, cmds)] *)
Definition extend (coll_name : string) (c : dict) : M unit := fun w =>
  let s := session w in
  refresh (set_session (set_cmds (Dict.set coll_name c (cmds s)) s) w).

(** [remove(coll_name)]: [self.cmds.pop(coll_name)] raises [KeyError] when the
    key is absent. *)
Definition remove (coll_name : string) : M unit := fun w =>
  let s := session w in
  match Dict.get coll_name (cmds s) with
  | None => (Raise (KeyError coll_name), w)
  | Some _ =>
      refresh (set_session (set_cmds (Dict.pop coll_name (cmds s)) s) w)
  end.

(** [CmdSession(cmds)]: the constructor registers [cmds] under ['__init__']. *)
Definition init (c : dict) : M unit := fun w =>
  refresh (set_session (set_cmds [("__init__", c)] (session w)) w).

(* ------------------------------------------------------------------ *)
(** ** Resolution *)

(** The [while] loop of [parse]: the node reached ([None] when a token is
    not a key of the current dictionary) and what is left of [_args]. *)
Fixpoint parse_loop (d : value) (_args : list string)
  : option value * list string :=
  match d, _args with
  | VDict items, cu :: rest =>
      match Dict.get cu items with
      | None => (None, rest)
      | Some d' => parse_loop d' rest
      end
  | _, _ => (Some d, _args)
  end.

Definition unknown_command (args : list string) : exn :=
  KeyError ("Unknown command: " ++ dquote ++ join " " args ++ dquote).
Definition incomplete_command (args : list string) : exn :=
  KeyError ("Incomplete command: " ++ dquote ++ join " " args ++ dquote).

(** [parse(args)]: [args] is the address of the caller's list; the result is
    the node found and the address of the list of remaining tokens. *)
Definition parse (args : loc) : M (value * loc) := fun w =>
  match Store.get args (lists w) with
  | None => (Raise (AttributeError "'NoneType' object has no attribute 'copy'"), w)
  | Some tokens =>
      let _args := Store.fresh (lists w) in
      let '(d, rest) := parse_loop (VDict (__cmds (session w))) tokens in
      let w' := set_lists (Store.set _args rest (lists w)) w in
      match d with
      | None => (Raise (unknown_command tokens), w')
      | Some d =>
          if negb (is_dict d) && negb (is_command d)
          then (Raise (incomplete_command tokens), w')
          else (Ret (d, _args), w')
      end
  end.

(** The node a path of keys leads to. *)
Fixpoint lookup_path (d : value) (path : list string) : option value :=
  match path with
  | [] => Some d
  | k :: rest =>
      match d with
      | VDict items =>
          match Dict.get k items with
          | Some v => lookup_path v rest
          | None => None
          end
      | VCmd _ _ => None
      end
  end.

(* ------------------------------------------------------------------ *)
(** ** Dispatch *)

(** Modelled from the spec: the callables of [hans.cmd.Command], whose
    module is not part of the sources: the availability predicate
    [cmd.available(state)] and the invocation [cmd(args, state=state)].  An
    invocation receives the address of its argument list and may change
    anything in the world, the session included; it ends normally or
    raises. *)
Class CommandSemantics : Type := {
  available : Command -> CmdSession -> bool;
  invoke : Command -> loc -> World -> option exn * World
}.

Section Dispatch.
Context {sem : CommandSemantics} {console : Console}.

Definition several_subcommands (cmd : string) : exn :=
  TypeError (dquote ++ cmd ++ dquote ++ " has several sub-commands!").
Definition not_usable (cmd : string) : exn :=
  ValueError (dquote ++ cmd ++ dquote ++ " is not usable in the current context!").

(** The list object built by [cmd.strip().split()]. *)
Definition new_list (l : list string) : M loc := fun w =>
  let a := Store.fresh (lists w) in
  (Ret a, set_lists (Store.set a l (lists w)) w).

(** [__getitem__(cmd)] *)
Definition getitem (cmd : string) : M (Command * loc) :=
  tokens <- new_list (split (strip cmd)) ;;
  r <- parse tokens ;;
  match fst r with
  | VDict _ => raise (several_subcommands cmd)
  | VCmd _ d =>
      fun w =>
        if negb (available d (session w))
        then (Raise (not_usable cmd), w)
        else (Ret (d, snd r), w)
  end.

(** [cmd(args, state=self.state)] *)
Definition call (cmd : Command) (args : loc) : M unit := fun w =>
  let content := match Store.get args (lists w) with
                 | Some l => l
                 | None => []
                 end in
  match invoke cmd args (set_calls (calls w ++ [(cmd, content)]) w) with
  | (None, w') => (Ret tt, w')
  | (Some e, w') => (Raise e, w')
  end.

(** The [try] block of [handle]. *)
Definition lookup_and_call (cmdline : string) : M unit :=
  r <- getitem cmdline ;;
  call (fst r) (snd r).

(** [handle(cmdline)] *)
Definition handle (cmdline : string) : M unit := fun w =>
  if is_empty (strip cmdline) then (Ret tt, w)
  else
    match lookup_and_call cmdline w with
    | (Ret _, w') => (Ret tt, w')
    | (Raise e, w') =>
        if is_KeyError e
        then io_e ("Command not found: " ++ cmdline) w'
        else if is_SystemExit e
             then (Raise e, w')
             else io_e ("Error while executing command: " ++ str_exn e) w'
    end.
End Dispatch.

(* ------------------------------------------------------------------ *)
(** ** Notions used to state the properties *)

(** A command tree with the addresses of its Command objects forgotten: two
    trees with the same erasure have the same keys, in the same order,
    leading to equal Commands. *)
Fixpoint erase (v : value) : value :=
  match v with
  | VCmd _ c => VCmd 0 c
  | VDict items => VDict (map (fun kv => (fst kv, erase (snd kv))) items)
  end.

Definition erase_items (d : dict) : dict :=
  map (fun kv => (fst kv, erase (snd kv))) d.

(** No string occurs twice. *)
Fixpoint nodupb (l : list string) : bool :=
  match l with
  | [] => true
  | x :: rest => negb (existsb (String.eqb x) rest) && nodupb rest
  end.

(** Every dictionary of the tree has pairwise distinct keys, as every Python
    [dict] has. *)
Fixpoint unique_keys (v : value) : bool :=
  match v with
  | VCmd _ _ => true
  | VDict items =>
      nodupb (map fst items)
      && forallb (fun kv => unique_keys (snd kv)) items
  end.

(** The names a collection claims at its top level: every key, followed by
    the aliases of the Command stored under it. *)
Definition alias_names (v : value) : list string :=
  match v with VCmd _ c => aliases c | VDict _ => [] end.

Definition top_names (d : dict) : list string :=
  flat_map (fun kv => fst kv :: alias_names (snd kv)) d.

Definition all_names (r : list (string * dict)) : list string :=
  flat_map top_names (Dict.values r).

(** The tokens resolve in the tree [d]: the resolver's walk does not run
    into a missing key. *)
Definition resolves (d : value) (tokens : list string) : bool :=
  match fst (parse_loop d tokens) with Some _ => true | None => false end.

(** The namespace [refresh] builds from the collections [r]. *)
Definition rebuilt (r : list (string * dict)) (n : loc) : dict :=
  items_of (fst (fst (merge_all (Dict.values r) (VDict []) n))).

(* ------------------------------------------------------------------ *)
(** ** Sample sessions *)

(** [needle in s] *)
Fixpoint contains (needle s : string) : bool :=
  match s with
  | EmptyString => String.prefix needle s
  | String _ rest => String.prefix needle s || contains needle rest
  end.

Module Sample.

(** A console that, as [rich] does, rejects the closing tag [[/x]], which
    no line printed by the engine opens, and prints everything else. *)
Definition console : Console := {|
  markup_error := fun s =>
    if contains "[/x]" s
    then Some (OtherError "closing tag '[/x]' doesn't match any open tag")
    else None
|}.

Definition go : Command := mkCommand "go" ["g"] 0.
Definition quit : Command := mkCommand "quit" ["q"; "exit"] 1.
Definition secret : Command := mkCommand "secret" [] 2.
Definition boom : Command := mkCommand "boom" [] 3.
Definition X : Command := mkCommand "X" [] 4.
Definition Y : Command := mkCommand "Y" [] 5.

(** Nothing registered, nothing allocated. *)
Definition blank : World :=
  mkWorld (mkSession [] [] [] []) 0 [] [] [].

Definition after (m : M unit) (w : World) : World := snd (m w).

(** [secret] is never available; [quit] calls [sys.exit(0)]; [boom] raises;
    the other commands return. *)
Definition sem : CommandSemantics := {|
  available := fun c _ => negb (behaviour c =? 2)%nat;
  invoke := fun c _ w =>
    match behaviour c with
    | 1 => (Some (SystemExit 0), w)
    | 3 => (Some (OtherError "boom!"), w)
    | _ => (None, w)
    end
|}.

(** [foo -> bar -> <Command X>] *)
Definition foo_bar : dict := [("foo", VDict [("bar", VCmd 7 X)])].
Definition w_foo : World := after (init foo_bar) blank.

(** The world [w] in which the caller holds one list, at address 1. *)
Definition with_args (l : list string) (w : World) : World :=
  set_lists [(1, l)] w.

(** A session with the commands of [sem] at its top level. *)
Definition core : dict :=
  [("go", VCmd 1 go); ("quit", VCmd 2 quit);
   ("secret", VCmd 3 secret); ("boom", VCmd 4 boom)].
Definition w_core : World := after (init core) blank.

(** A Command declared inside a sub-tree. *)
Definition nested_go : dict := [("sub", VDict [("go", VCmd 1 go)])].
Definition w_nested : World := after (init nested_go) blank.

(** Collisions at the top-level key [x]. *)
Definition x_cmd : dict := [("x", VCmd 1 X)].
Definition y_cmd : dict := [("x", VCmd 2 Y)].
Definition x_tree_p : dict := [("x", VDict [("p", VCmd 1 X)])].
Definition x_tree_q : dict := [("x", VDict [("q", VCmd 2 Y)])].
Definition x_tree_empty : dict := [("x", VDict [])].

(** Two collections registered, the namespace not yet rebuilt. *)
Definition registered (first second : dict) : World :=
  set_session
    (set_cmds [("__init__", first); ("plug", second)] (session blank)) blank.

(** A plugin collection registered next to the initial one. *)
Definition plugin : dict := [("plug", VDict [("run", VCmd 9 Y)])].
Definition w_plugin : World := after (extend "plugin" plugin) w_core.


End Sample.

(* ------------------------------------------------------------------ *)
(** ** The operators [+=] and [-=] *)

(** The Python values an operand of [+=] or [-=] may be, as far as the
    operators tell them apart. *)
Inductive pyobj : Type :=
| PStr (s : string)
| PDict (d : dict)
| PTuple (items : list pyobj)
| PNone.

(** [__iadd__(other)] *)
Definition iadd (other : pyobj) : M unit :=
  match other with
  | PTuple [PStr coll_name; PDict c] => extend coll_name c
  | _ =>
      raise (ValueError "Invalid type for extending session - has to be a tuple of (<collection name>, <cmd collection>).")
  end.

(** [__isub__(other)] *)
Definition isub (other : pyobj) : M unit :=
  match other with
  | PStr coll_name => remove coll_name
  | _ =>
      raise (ValueError "Invalid type for removing collection - has to be a string (name of the collection).")
  end.

(* ------------------------------------------------------------------ *)
(** ** The input loop *)

(** Modelled from the spec: [self.prompt(...)] is the line editor of
    prompt_toolkit, which is not part of the sources.  A call returns the
    line entered, or raises [KeyboardInterrupt] (interrupt signal during the
    read) or [EOFError] (end of input). *)
Inductive prompt_result : Type :=
| Line (s : string)
| Interrupted
| EndOfInput.

Definition is_KeyboardInterrupt (e : exn) : bool :=
  match e with KeyboardInterrupt => true | _ => false end.

Section Loop.
Context {sem : CommandSemantics} {console : Console}.

(** [handle_forever()], run against the results of the successive calls of
    the prompt.  The loop is left at end of input ([true]); when the results
    given are used up it is waiting in the prompt ([false]).  An exception
    that leaves [handle] leaves the loop, unless it is a
    [KeyboardInterrupt].  The text of the prompt is taken to be computed
    without an exception. *)
Fixpoint handle_forever (inputs : list prompt_result) : M bool := fun w =>
  match inputs with
  | [] => (Ret false, w)
  | Line s :: rest =>
      match handle s w with
      | (Ret _, w') => handle_forever rest w'
      | (Raise e, w') =>
          if is_KeyboardInterrupt e then handle_forever rest w'
          else (Raise e, w')
      end
  | Interrupted :: rest => handle_forever rest w
  | EndOfInput :: _ => (Ret true, w)
  end.
End Loop.

(* ------------------------------------------------------------------ *)
(** ** [hans/io.py]: rulers and centred text *)

Fixpoint repeat_str (c : string) (n : nat) : string :=
  match n with
  | O => EmptyString
  | S k => (c ++ repeat_str c k)%string
  end.

(** [c * k] for a string [c] and an integer [k]: empty when [k <= 0]. *)
Definition str_mul (c : string) (k : Z) : string := repeat_str c (Z.to_nat k).

(** The width used by [hr] and [center_text]: the one given, or the number
    of columns of the terminal when it is [None] or not positive. *)
Definition effective_width (width : option Z) (columns : Z) : Z :=
  match width with
  | None => columns
  | Some w => if (w <=? 0)%Z then columns else w
  end.

(** [hr(c, width)]; [columns] is [shutil.get_terminal_size().columns]. *)
Definition hr (c : string) (width : option Z) (columns : Z) : string :=
  str_mul c (effective_width width columns).

Definition newline : ascii := ascii_of_nat 10.

(** [s.split('\n')] *)
Fixpoint split_lines (s : string) : list string :=
  match s with
  | EmptyString => [EmptyString]
  | String c rest =>
      if Ascii.eqb c newline then EmptyString :: split_lines rest
      else match split_lines rest with
           | [] => [String c EmptyString]
           | l :: ls => String c l :: ls
           end
  end.

(** [max(len(l) for l in lines)] *)
Definition max_len (lines : list string) : Z :=
  Z.of_nat (list_max (map String.length lines)).

(** [center_text(s, width)] *)
Definition center_text (s : string) (width : option Z) (columns : Z) : string :=
  let width := effective_width width columns in
  let sp := str_mul " " (width / 2 - max_len (split_lines s) / 2) in
  join (String newline EmptyString)
    (map (fun l => (sp ++ l ++ sp)%string) (split_lines s)).

(* ------------------------------------------------------------------ *)
(** ** More notions used to state the properties *)

(** The addresses of the Command objects of a tree. *)
Fixpoint ids (v : value) : list loc :=
  match v with
  | VCmd id _ => [id]
  | VDict items => flat_map (fun kv => ids (snd kv)) items
  end.

(** What the completion projection shows of a node: a Command is a
    terminal marker, a mapping is the projection of its entries. *)
Definition project (v : value) : nested :=
  match v with
  | VCmd _ _ => NNone
  | VDict _ => NDict (build_completer [] v)
  end.

(** The node a path of keys leads to in a completion dictionary. *)
Fixpoint nested_lookup (c : nested) (path : list string) : option nested :=
  match path with
  | [] => Some c
  | k :: rest =>
      match c with
      | NDict items =>
          match Dict.get k items with
          | Some v => nested_lookup v rest
          | None => None
          end
      | NNone => None
      end
  end.

(** A line made of whitespace only (the empty line included). *)
Definition is_blank (s : string) : bool :=
  forallb is_space (list_ascii_of_string s).

(** The results of the prompt that leave no trace: an interrupt and a line
    of whitespace only. *)
Definition skipped (i : prompt_result) : bool :=
  match i with
  | Line s => is_blank s
  | Interrupted => true
  | EndOfInput => false
  end.





(** The addresses of the Command objects of the registered collections. *)
Definition collection_ids (r : list (string * dict)) : list loc :=
  flat_map (fun e => ids (VDict (snd e))) r.

(** Every Command object of the session, in a registered collection or in
    the merged namespace, lives below the next free address. *)
Definition allocated (w : World) : bool :=
  forallb (fun i => i <? next_id w)%nat (collection_ids (cmds (session w)))
  && forallb (fun i => i <? next_id w)%nat
       (ids (VDict (__cmds (session w)))).

(** A session whose Command [lookup] fails with a [KeyError] of its own. *)
Module Demo.

(** Nothing registered yet; the addresses below 100 are taken, among them
    those of the Commands of the sample collections. *)
Definition started : World :=
  mkWorld (mkSession [] [] [] []) 100 [] [] [].

Definition w_started : World :=
  Sample.after (extend "plugin" Sample.plugin)
    (Sample.after (init Sample.core) started).

Definition lookup : Command := mkCommand "lookup" [] 6.

Definition sem : CommandSemantics := {|
  available := fun _ _ => true;
  invoke := fun c _ w =>
    match behaviour c with
    | 6 => (Some (KeyError "no such entry"), w)
    | _ => (None, w)
    end
|}.

Definition w_lookup : World :=
  Sample.after (init [("lookup", VCmd 1 lookup)]) Sample.blank.

End Demo.

(* ================================================================== *)
(** * Properties *)

(** Induction over command trees, through the entries of each dictionary. *)
Lemma value_tree_ind (P : value -> Prop) :
  (forall id c, P (VCmd id c)) ->
  (forall items, Forall (fun kv => P (snd kv)) items -> P (VDict items)) ->
  forall v, P v.
Proof.
  intros Hcmd Hdict.
  fix IH 1. intros [id c | items].
  - apply Hcmd.
  - apply Hdict. induction items as [| kv rest IHrest].
    + constructor.
    + constructor; [apply IH | exact IHrest].
Qed.

(** ** Dictionaries *)

Section DictFacts.
Context {A : Type}.
Implicit Types (d : list (string * A)) (k x : string) (v : A).

Lemma get_set_same k v d : Dict.get k (Dict.set k v d) = Some v.
Proof.
  induction d as [| [k' v'] rest IH]; simpl.
  - now rewrite String.eqb_refl.
  - destruct (String.eqb k k') eqn:E; simpl; rewrite E; auto.
Qed.

Lemma get_set_other k x v d :
  x <> k -> Dict.get x (Dict.set k v d) = Dict.get x d.
Proof.
  intros Hne. induction d as [| [k' v'] rest IH]; simpl.
  - apply String.eqb_neq in Hne. now rewrite Hne.
  - destruct (String.eqb k k') eqn:E; simpl.
    + apply String.eqb_eq in E. subst k'.
      apply String.eqb_neq in Hne. now rewrite Hne.
    + now rewrite IH.
Qed.

Lemma get_set k x v d :
  Dict.get x (Dict.set k v d)
  = if String.eqb x k then Some v else Dict.get x d.
Proof.
  destruct (String.eqb x k) eqn:E.
  - apply String.eqb_eq in E. subst. apply get_set_same.
  - apply String.eqb_neq in E. now apply get_set_other.
Qed.

Lemma get_none_keys k d : Dict.get k d = None <-> ~ In k (Dict.keys d).
Proof.
  induction d as [| [k' v'] rest IH]; simpl.
  - tauto.
  - destruct (String.eqb k k') eqn:E.
    + apply String.eqb_eq in E. subst. split; [discriminate | tauto].
    + apply String.eqb_neq in E. rewrite IH. split.
      * intros H [H1 | H1]; [congruence | tauto].
      * tauto.
Qed.

Lemma get_some_in k v d : Dict.get k d = Some v -> In (k, v) d.
Proof.
  induction d as [| [k' v'] rest IH]; simpl; [discriminate |].
  destruct (String.eqb k k') eqn:E.
  - apply String.eqb_eq in E. intros [= ->]. subst. now left.
  - intros H. right. auto.
Qed.

Lemma get_some_keys k v d : Dict.get k d = Some v -> In k (Dict.keys d).
Proof.
  intros H. apply get_some_in in H.
  unfold Dict.keys. apply in_map_iff. now exists (k, v).
Qed.

Lemma keys_set_in k v d x :
  In x (Dict.keys (Dict.set k v d)) <-> x = k \/ In x (Dict.keys d).
Proof.
  induction d as [| [k' v'] rest IH]; simpl.
  - intuition.
  - destruct (String.eqb k k') eqn:E; simpl.
    + apply String.eqb_eq in E. subst. intuition.
    + rewrite IH. intuition.
Qed.

Lemma keys_set_nodup k v d :
  NoDup (Dict.keys d) -> NoDup (Dict.keys (Dict.set k v d)).
Proof.
  induction d as [| [k' v'] rest IH]; simpl; intros Hnd.
  - constructor; [simpl; tauto | constructor].
  - inversion Hnd as [| ? ? Hnotin Hrest]; subst.
    destruct (String.eqb k k') eqn:E; simpl.
    + constructor; assumption.
    + constructor; [| now apply IH].
      fold (Dict.keys (Dict.set k v rest)). rewrite keys_set_in.
      apply String.eqb_neq in E. intros [-> | H]; [congruence | tauto].
Qed.

Lemma get_setdefault k dflt d :
  Dict.get k (Dict.setdefault k dflt d)
  = Some (match Dict.get k d with Some s => s | None => dflt end).
Proof.
  unfold Dict.setdefault. destruct (Dict.get k d) eqn:E.
  - exact E.
  - apply get_set_same.
Qed.

Lemma get_setdefault_other k x dflt d :
  x <> k -> Dict.get x (Dict.setdefault k dflt d) = Dict.get x d.
Proof.
  intros Hne. unfold Dict.setdefault. destruct (Dict.get k d).
  - reflexivity.
  - now apply get_set_other.
Qed.

End DictFacts.

Lemma nodupb_NoDup l : nodupb l = true <-> NoDup l.
Proof.
  induction l as [| x rest IH]; simpl.
  - split; [constructor | reflexivity].
  - rewrite andb_true_iff, negb_true_iff, IH. split.
    + intros [Hx Hrest]. constructor; [| assumption].
      intros Hin. assert (existsb (String.eqb x) rest = true) as Hc.
      { apply existsb_exists. exists x. split; [assumption |].
        apply String.eqb_refl. }
      congruence.
    + intros Hnd. inversion Hnd as [| ? ? Hnotin Hrest]; subst.
      split; [| assumption].
      destruct (existsb (String.eqb x) rest) eqn:E; [| reflexivity].
      apply existsb_exists in E. destruct E as [y [Hy Heq]].
      apply String.eqb_eq in Heq. subst. tauto.
Qed.

(** ** The store of list objects *)

Section StoreFacts.
Context {A : Type}.
Implicit Types (h : list (loc * A)) (l : loc) (x : A).

Lemma store_get_set_same l x h : Store.get l (Store.set l x h) = Some x.
Proof.
  induction h as [| [l' x'] rest IH]; simpl.
  - now rewrite Nat.eqb_refl.
  - destruct (Nat.eqb l l') eqn:E; simpl; rewrite E; auto.
Qed.

Lemma store_get_set_other l l0 x h :
  l0 <> l -> Store.get l0 (Store.set l x h) = Store.get l0 h.
Proof.
  intros Hne. induction h as [| [l' x'] rest IH]; simpl.
  - apply Nat.eqb_neq in Hne. now rewrite Hne.
  - destruct (Nat.eqb l l') eqn:E; simpl.
    + apply Nat.eqb_eq in E. subst l'.
      apply Nat.eqb_neq in Hne. now rewrite Hne.
    + now rewrite IH.
Qed.

Lemma store_get_bound l x h :
  Store.get l h = Some x -> l <= fold_right Nat.max 0 (map fst h).
Proof.
  induction h as [| [l' x'] rest IH]; simpl; [discriminate |].
  destruct (Nat.eqb l l') eqn:E.
  - apply Nat.eqb_eq in E. subst. intros _. apply Nat.le_max_l.
  - intros H. apply IH in H. lia.
Qed.

Lemma store_get_fresh h : Store.get (Store.fresh h) h = None.
Proof.
  destruct (Store.get (Store.fresh h) h) eqn:E; [| reflexivity].
  apply store_get_bound in E. unfold Store.fresh in E. lia.
Qed.

Lemma store_live_not_fresh l x h :
  Store.get l h = Some x -> l <> Store.fresh h.
Proof.
  intros H Heq. subst. rewrite store_get_fresh in H. discriminate.
Qed.
End StoreFacts.

(** ** Resolution *)

Lemma parse_loop_command d path rest id c :
  lookup_path d path = Some (VCmd id c) ->
  parse_loop d (path ++ rest) = (Some (VCmd id c), rest).
Proof.
  revert d. induction path as [| k q IH]; intros d Hpath; simpl in *.
  - injection Hpath as ->. destruct rest; reflexivity.
  - destruct d as [id' c' | items]; [discriminate |].
    destruct (Dict.get k items) as [v |]; [| discriminate].
    now apply IH.
Qed.

Lemma parse_loop_interior d path m :
  lookup_path d path = Some (VDict m) ->
  parse_loop d path = (Some (VDict m), []).
Proof.
  revert d. induction path as [| k q IH]; intros d Hpath; simpl in *.
  - injection Hpath as ->. reflexivity.
  - destruct d as [id' c' | items]; [discriminate |].
    destruct (Dict.get k items) as [v |]; [| discriminate].
    now apply IH.
Qed.

(** What [parse] does once the loop has stopped on a node. *)
Lemma parse_found w args tokens d rest :
  Store.get args (lists w) = Some tokens ->
  parse_loop (VDict (__cmds (session w))) tokens = (Some d, rest) ->
  parse args w
  = (Ret (d, Store.fresh (lists w)),
     set_lists (Store.set (Store.fresh (lists w)) rest (lists w)) w).
Proof.
  intros Hargs Hloop. unfold parse. rewrite Hargs, Hloop.
  destruct d; reflexivity.
Qed.

Lemma parse_missing w args tokens rest :
  Store.get args (lists w) = Some tokens ->
  parse_loop (VDict (__cmds (session w))) tokens = (None, rest) ->
  parse args w
  = (Raise (unknown_command tokens),
     set_lists (Store.set (Store.fresh (lists w)) rest (lists w)) w).
Proof.
  intros Hargs Hloop. unfold parse. now rewrite Hargs, Hloop.
Qed.

(** C3.  When a prefix of the tokens leads to a Command, [parse] does not
    fail: it returns that Command and a list holding exactly the tokens
    after the prefix, in their order. *)
Theorem parse_command_prefix (w : World) (args : loc)
    (path rest : list string) (id : loc) (c : Command) :
  Store.get args (lists w) = Some (path ++ rest) ->
  lookup_path (VDict (__cmds (session w))) path = Some (VCmd id c) ->
  exists _args w',
    parse args w = (Ret (VCmd id c, _args), w')
    /\ Store.get _args (lists w') = Some rest.
Proof.
  intros Hargs Hpath.
  exists (Store.fresh (lists w)).
  exists (set_lists (Store.set (Store.fresh (lists w)) rest (lists w)) w).
  split.
  - apply parse_found with (tokens := path ++ rest); [assumption |].
    now apply parse_loop_command.
  - simpl. apply store_get_set_same.
Qed.

Lemma parse_command_prefix_witness :
  Store.get 1 (lists (Sample.with_args ["foo"; "bar"; "baz"] Sample.w_foo))
  = Some (["foo"; "bar"] ++ ["baz"])
  /\ lookup_path
       (VDict (__cmds (session
                 (Sample.with_args ["foo"; "bar"; "baz"] Sample.w_foo))))
       ["foo"; "bar"] = Some (VCmd 0 Sample.X)
  /\ exists _args w',
       parse 1 (Sample.with_args ["foo"; "bar"; "baz"] Sample.w_foo)
       = (Ret (VCmd 0 Sample.X, _args), w')
       /\ Store.get _args (lists w') = Some ["baz"].
Proof.
  split; [reflexivity | split; [reflexivity |]].
  apply (parse_command_prefix
           (Sample.with_args ["foo"; "bar"; "baz"] Sample.w_foo) 1
           ["foo"; "bar"] ["baz"]); reflexivity.
Defined.

(** C2, as stated, fails: on the namespace [foo -> bar -> X] the call
    [parse([])] raises nothing and returns the root mapping; so does
    [parse(["foo"])] with the mapping under [foo]. *)
Lemma parse_interior_counterexample :
  fst (parse 1 (Sample.with_args [] Sample.w_foo))
  = Ret (VDict [("foo", VDict [("bar", VCmd 0 Sample.X)])], 2)
  /\ fst (parse 1 (Sample.with_args ["foo"] Sample.w_foo))
     = Ret (VDict [("bar", VCmd 0 Sample.X)], 2).
Proof. split; reflexivity. Qed.

Section Lookup.
Context {sem : CommandSemantics}.

(** C2, amended.  When the tokens are exhausted on an interior mapping,
    [parse] returns that mapping with an empty list of remaining tokens;
    it is [__getitem__] that then raises the [TypeError] "has several
    sub-commands". *)
Theorem parse_interior_returns (w : World) (args : loc)
    (tokens : list string) (m : dict) :
  Store.get args (lists w) = Some tokens ->
  lookup_path (VDict (__cmds (session w))) tokens = Some (VDict m) ->
  (exists _args w',
      parse args w = (Ret (VDict m, _args), w')
      /\ Store.get _args (lists w') = Some [])
  /\ (forall cmd, split (strip cmd) = tokens ->
      exists w', getitem cmd w = (Raise (several_subcommands cmd), w')).
Proof.
  intros Hargs Hpath. apply parse_loop_interior in Hpath. split.
  - exists (Store.fresh (lists w)).
    exists (set_lists (Store.set (Store.fresh (lists w)) [] (lists w)) w).
    split.
    + now apply parse_found with (tokens := tokens).
    + simpl. apply store_get_set_same.
  - intros cmd Htok. unfold getitem, bind, new_list. rewrite Htok.
    erewrite parse_found with (tokens := tokens) (d := VDict m) (rest := []).
    + simpl. unfold raise. eexists. reflexivity.
    + simpl. apply store_get_set_same.
    + exact Hpath.
Qed.
End Lookup.

Lemma parse_interior_returns_witness :
  Store.get 1 (lists (Sample.with_args ["foo"] Sample.w_foo)) = Some ["foo"]
  /\ lookup_path
       (VDict (__cmds (session (Sample.with_args ["foo"] Sample.w_foo))))
       ["foo"] = Some (VDict [("bar", VCmd 0 Sample.X)])
  /\ (exists _args w',
        parse 1 (Sample.with_args ["foo"] Sample.w_foo)
        = (Ret (VDict [("bar", VCmd 0 Sample.X)], _args), w')
        /\ Store.get _args (lists w') = Some [])
  /\ (forall cmd, split (strip cmd) = ["foo"] ->
      exists w',
        @getitem Sample.sem cmd (Sample.with_args ["foo"] Sample.w_foo)
        = (Raise (several_subcommands cmd), w')).
Proof.
  split; [reflexivity | split; [reflexivity |]].
  apply (@parse_interior_returns Sample.sem
           (Sample.with_args ["foo"] Sample.w_foo) 1 ["foo"]); reflexivity.
Defined.

(** C10.  [parse] is read-only: the caller's list, every other list, the
    session with its registered collections and merged namespace, and the
    rest of the world are as before, whether [parse] returns or raises; the
    list it returns lives at an address that held no object before the
    call. *)
Theorem parse_read_only (w : World) (args : loc) (tokens : list string) :
  Store.get args (lists w) = Some tokens ->
  Store.get args (lists (snd (parse args w))) = Some tokens
  /\ (forall l x, Store.get l (lists w) = Some x ->
               Store.get l (lists (snd (parse args w))) = Some x)
  /\ session (snd (parse args w)) = session w
  /\ next_id (snd (parse args w)) = next_id w
  /\ output (snd (parse args w)) = output w
  /\ calls (snd (parse args w)) = calls w
  /\ (forall d _args, fst (parse args w) = Ret (d, _args) ->
        _args <> args
        /\ Store.get _args (lists w) = None
        /\ exists rest, Store.get _args (lists (snd (parse args w))) = Some rest).
Proof.
  intros Hargs.
  assert (forall l x, Store.get l (lists w) = Some x ->
            forall rest,
              Store.get l (Store.set (Store.fresh (lists w)) rest (lists w))
              = Some x) as Hkeep.
  { intros l x Hl rest. rewrite store_get_set_other; [assumption |].
    now apply store_live_not_fresh with (x := x). }
  unfold parse. rewrite Hargs.
  destruct (parse_loop (VDict (__cmds (session w))) tokens) as [[d |] rest].
  - destruct (negb (is_dict d) && negb (is_command d)); simpl;
      (split; [now apply Hkeep |]);
      (split; [intros l x Hl; now apply Hkeep |]);
      repeat (split; [reflexivity |]).
    + intros d0 a0 [=].
    + intros d0 a0 [= <- <-]. split.
      * intros Heq. symmetry in Heq. revert Heq.
        now apply store_live_not_fresh with (x := tokens).
      * split; [apply store_get_fresh |].
        exists rest. apply store_get_set_same.
  - simpl. split; [now apply Hkeep |].
    split; [intros l x Hl; now apply Hkeep |].
    repeat (split; [reflexivity |]). intros d0 a0 [=].
Qed.

Lemma parse_read_only_witness :
  Store.get 1 (lists (Sample.with_args ["foo"; "bar"; "baz"] Sample.w_foo))
  = Some ["foo"; "bar"; "baz"]
  /\ Store.get 1
       (lists (snd (parse 1
                      (Sample.with_args ["foo"; "bar"; "baz"] Sample.w_foo))))
     = Some ["foo"; "bar"; "baz"].
Proof.
  split; [reflexivity |].
  destruct (parse_read_only
              (Sample.with_args ["foo"; "bar"; "baz"] Sample.w_foo) 1
              ["foo"; "bar"; "baz"] eq_refl) as [Hsame _].
  exact Hsame.
Defined.

(** ** Removing a collection *)

(** C9.  [remove] of a key that is not registered raises [KeyError] and
    leaves the whole world as it was: the registered collections, the
    merged namespace and the completion projection are untouched. *)
Theorem remove_unregistered (w : World) (coll_name : string) :
  Dict.get coll_name (cmds (session w)) = None ->
  remove coll_name w = (Raise (KeyError coll_name), w).
Proof.
  intros Hget. unfold remove. now rewrite Hget.
Qed.

Lemma remove_unregistered_witness :
  Dict.get "ghost" (cmds (session Sample.w_core)) = None
  /\ remove "ghost" Sample.w_core = (Raise (KeyError "ghost"), Sample.w_core).
Proof.
  split; [reflexivity |].
  apply (remove_unregistered Sample.w_core "ghost"). reflexivity.
Defined.

(** ** Dispatch *)

Lemma strip_blank_no_command (cmdline : string) (ns : dict) id c rest :
  parse_loop (VDict ns) (split (strip cmdline)) = (Some (VCmd id c), rest) ->
  is_empty (strip cmdline) = false.
Proof.
  destruct (strip cmdline) eqn:E; [| reflexivity].
  simpl. discriminate.
Qed.

Section DispatchFacts.
Context {sem : CommandSemantics}.

(** What the lookup does with a line that resolves to a Command. *)
Lemma getitem_command (w : World) (cmdline : string) id c rest :
  parse_loop (VDict (__cmds (session w))) (split (strip cmdline))
  = (Some (VCmd id c), rest) ->
  getitem cmdline w
  = ((if negb (available c (session w))
      then Raise (not_usable cmdline)
      else Ret (c, Store.fresh
                     (Store.set (Store.fresh (lists w))
                        (split (strip cmdline)) (lists w)))),
     set_lists
       (Store.set
          (Store.fresh
             (Store.set (Store.fresh (lists w))
                (split (strip cmdline)) (lists w)))
          rest
          (Store.set (Store.fresh (lists w))
             (split (strip cmdline)) (lists w)))
       w).
Proof.
  intros Hloop. unfold getitem, bind, new_list.
  erewrite parse_found
    with (tokens := split (strip cmdline)) (d := VCmd id c) (rest := rest).
  - simpl. destruct (negb (available c (session w))); reflexivity.
  - simpl. apply store_get_set_same.
  - exact Hloop.
Qed.

(** The lookup raises no termination request. *)
Lemma getitem_no_exit (w w1 : World) (cmdline : string) (e : exn) :
  getitem cmdline w = (Raise e, w1) -> is_SystemExit e = false.
Proof.
  unfold getitem, bind, new_list, parse. simpl.
  rewrite store_get_set_same.
  destruct (parse_loop (VDict (__cmds (session w))) (split (strip cmdline)))
    as [[d |] rest].
  - destruct d as [id c | items]; simpl.
    + destruct (negb (available c (session w))); intros [= <- <-];
        reflexivity.
    + unfold raise. intros [= <- <-]. reflexivity.
  - intros [= <- <-]. reflexivity.
Qed.

End DispatchFacts.

Section DispatchClaims.
Context {sem : CommandSemantics} {console : Console}.

(** What [handle] does once the lookup has raised: the exception is
    reported through [io.e], in the [except] block that catches it. *)
Lemma handle_lookup_raised (w w1 : World) (cmdline : string) (e : exn) :
  is_empty (strip cmdline) = false ->
  getitem cmdline w = (Raise e, w1) ->
  handle cmdline w
  = io_e (if is_KeyError e
          then "Command not found: " ++ cmdline
          else "Error while executing command: " ++ str_exn e) w1.
Proof.
  intros Hblank Hget. unfold handle, lookup_and_call, bind.
  rewrite Hblank, Hget. apply getitem_no_exit in Hget.
  destruct (is_KeyError e); [reflexivity |]. now rewrite Hget.
Qed.

(** A line that resolves to a Command whose availability predicate rejects
    the session: the Command is not invoked, and the [ValueError] "is not
    usable in the current context" is handed to [io.e]. *)
Lemma handle_unavailable (w : World) (cmdline : string)
    (id : loc) (c : Command) (rest : list string) :
  parse_loop (VDict (__cmds (session w))) (split (strip cmdline))
  = (Some (VCmd id c), rest) ->
  available c (session w) = false ->
  exists w1,
    session w1 = session w
    /\ output w1 = output w
    /\ calls w1 = calls w
    /\ next_id w1 = next_id w
    /\ handle cmdline w
       = io_e ("Error while executing command: "
                 ++ dquote ++ cmdline ++ dquote
                 ++ " is not usable in the current context!") w1.
Proof.
  intros Hloop Havail.
  pose proof (strip_blank_no_command _ _ _ _ _ Hloop) as Hblank.
  pose proof (getitem_command w cmdline _ _ _ Hloop) as Hget.
  rewrite Havail in Hget. cbn [negb] in Hget.
  rewrite (handle_lookup_raised _ _ _ _ Hblank Hget).
  match type of Hget with _ = (_, ?w1) => exists w1 end.
  repeat split.
Qed.

(** An exception leaves [handle] only as a termination request or out of
    the console, while an error line is printed. *)
Lemma handle_raises (w w' : World) (cmdline : string) (e : exn) :
  handle cmdline w = (Raise e, w') ->
  is_SystemExit e = true \/ exists msg, markup_error (io.fe msg) = Some e.
Proof.
  unfold handle. destruct (is_empty (strip cmdline)); [discriminate |].
  destruct (lookup_and_call cmdline w) as [[u | e0] w1]; [discriminate |].
  unfold io_e. destruct (is_KeyError e0).
  - destruct (markup_error (io.fe ("Command not found: " ++ cmdline)))
      as [x |] eqn:E; [| discriminate].
    intros [= <- <-]. right. eexists. exact E.
  - destruct (is_SystemExit e0) eqn:Hexit.
    + intros [= <- <-]. now left.
    + destruct (markup_error
                  (io.fe ("Error while executing command: " ++ str_exn e0)))
        as [x |] eqn:E; [| discriminate].
      intros [= <- <-]. right. eexists. exact E.
Qed.
End DispatchClaims.

(** C7.  The claim holds of a line the console prints, and the Command is
    never invoked; but the error line is printed by [rich.print] inside the
    [except] block, with the line as typed in it, and on the line
    [secret [/x]], which resolves to the unavailable Command [secret], the
    console raises: the exception leaves [handle] instead of an error line
    being reported. *)
Theorem unavailable_line_markup_error :
  parse_loop (VDict (__cmds (session Sample.w_core)))
    (split (strip "secret [/x]")) = (Some (VCmd 2 Sample.secret), ["[/x]"])
  /\ @available Sample.sem Sample.secret (session Sample.w_core) = false
  /\ fst (@handle Sample.sem Sample.console "secret [/x]" Sample.w_core)
     = Raise (OtherError "closing tag '[/x]' doesn't match any open tag")
  /\ output (snd (@handle Sample.sem Sample.console "secret [/x]"
                    Sample.w_core)) = output Sample.w_core
  /\ calls (snd (@handle Sample.sem Sample.console "secret [/x]"
                   Sample.w_core)) = calls Sample.w_core
  /\ fst (@handle Sample.sem Sample.console "secret now" Sample.w_core)
     = Ret tt
  /\ output (snd (@handle Sample.sem Sample.console "secret now"
                    Sample.w_core))
     = [io.fe ("Error while executing command: "
                 ++ dquote ++ "secret now" ++ dquote
                 ++ " is not usable in the current context!")]
  /\ calls (snd (@handle Sample.sem Sample.console "secret now"
                   Sample.w_core)) = calls Sample.w_core.
Proof. repeat split. Qed.

(** C8.  A termination request raised by the invoked Command leaves
    [handle] as it is ([q]); an exception of the Command is reported and
    [handle] returns ([boom]); but the report itself is printed by
    [rich.print] inside the [except] blocks, and on the unknown line
    [[/x]] the console raises: an exception that is no termination request
    leaves [handle], and the input loop with it, before the next line is
    read. *)
Theorem markup_error_leaves_handle :
  fst (@handle Sample.sem Sample.console "q" Sample.w_core)
  = Raise (SystemExit 0)
  /\ fst (@handle Sample.sem Sample.console "boom" Sample.w_core) = Ret tt
  /\ output (snd (@handle Sample.sem Sample.console "boom" Sample.w_core))
     = [io.fe "Error while executing command: boom!"]
  /\ fst (parse_loop (VDict (__cmds (session Sample.w_core)))
            (split (strip "[/x]"))) = None
  /\ fst (@handle Sample.sem Sample.console "[/x]" Sample.w_core)
     = Raise (OtherError "closing tag '[/x]' doesn't match any open tag")
  /\ is_SystemExit
       (OtherError "closing tag '[/x]' doesn't match any open tag") = false
  /\ fst (@handle_forever Sample.sem Sample.console
            [Line "[/x]"; Line "go"] Sample.w_core)
     = Raise (OtherError "closing tag '[/x]' doesn't match any open tag")
  /\ calls (snd (@handle_forever Sample.sem Sample.console
                   [Line "[/x]"; Line "go"] Sample.w_core))
     = calls Sample.w_core.
Proof. repeat split. Qed.

(** ** Deep merge *)

Lemma deep_merge_nil a : deep_merge a (VDict []) = (a, None).
Proof. reflexivity. Qed.

Lemma deep_merge_cons_cmd da k id c rest :
  deep_merge (VDict da) (VDict ((k, VCmd id c) :: rest))
  = deep_merge (VDict (Dict.set k (VCmd id c) da)) (VDict rest).
Proof. reflexivity. Qed.

Lemma deep_merge_cons_dict da k bv rest :
  deep_merge (VDict da) (VDict ((k, VDict bv) :: rest))
  = match deep_merge
            (match Dict.get k (Dict.setdefault k (VDict []) da) with
             | Some s => s
             | None => VDict []
             end) (VDict bv)
    with
    | (sub', Some x) =>
        (VDict (Dict.set k sub' (Dict.setdefault k (VDict []) da)), Some x)
    | (sub', None) =>
        deep_merge
          (VDict (Dict.set k sub' (Dict.setdefault k (VDict []) da)))
          (VDict rest)
    end.
Proof.
  simpl.
  destruct (deep_merge
              match Dict.get k (Dict.setdefault k (VDict []) da) with
              | Some s => s
              | None => VDict []
              end (VDict bv)) as [sub' [x |]]; reflexivity.
Qed.

(** Merging into a Command succeeds only when there is nothing to merge. *)
Lemma deep_merge_into_command id c b a' :
  deep_merge (VCmd id c) (VDict b) = (a', None) -> b = [] /\ a' = VCmd id c.
Proof.
  destruct b as [| [k [id' c' | bv]] rest]; simpl.
  - intros [= <-]. auto.
  - discriminate.
  - discriminate.
Qed.

(** The top level of a successful merge, key by key: a key that [b] lacks
    keeps its value, a Command of [b] replaces whatever was there, a
    sub-tree of [b] is merged into what was there. *)
Lemma deep_merge_top (b : dict) :
  forall (da : dict) (a' : value),
    NoDup (Dict.keys b) ->
    deep_merge (VDict da) (VDict b) = (a', None) ->
    exists da',
      a' = VDict da'
      /\ forall x,
          match Dict.get x b with
          | None => Dict.get x da' = Dict.get x da
          | Some (VCmd id c) => Dict.get x da' = Some (VCmd id c)
          | Some (VDict bv) =>
              exists sub',
                deep_merge (match Dict.get x da with
                            | Some s => s
                            | None => VDict []
                            end) (VDict bv) = (sub', None)
                /\ Dict.get x da' = Some sub'
          end.
Proof.
  induction b as [| [k v] rest IH]; intros da a' Hnd Hmerge.
  - rewrite deep_merge_nil in Hmerge. injection Hmerge as <-.
    exists da. split; [reflexivity | intros x; reflexivity].
  - simpl in Hnd. inversion Hnd as [| ? ? Hnotin Hrest]; subst.
    assert (Dict.get k rest = None) as Hk by now apply get_none_keys.
    destruct v as [id c | bv].
    + rewrite deep_merge_cons_cmd in Hmerge.
      destruct (IH _ _ Hrest Hmerge) as [da' [-> Hx]].
      exists da'. split; [reflexivity |]. intros x. simpl.
      destruct (String.eqb x k) eqn:E.
      * apply String.eqb_eq in E. subst x.
        specialize (Hx k). rewrite Hk in Hx.
        now rewrite get_set_same in Hx.
      * apply String.eqb_neq in E. specialize (Hx x).
        rewrite get_set_other in Hx by assumption. exact Hx.
    + rewrite deep_merge_cons_dict in Hmerge.
      rewrite get_setdefault in Hmerge.
      destruct (deep_merge
                  match Dict.get k da with
                  | Some s => s
                  | None => VDict []
                  end (VDict bv)) as [sub' [e |]] eqn:Hsub; [discriminate |].
      destruct (IH _ _ Hrest Hmerge) as [da' [-> Hx]].
      exists da'. split; [reflexivity |]. intros x. simpl.
      destruct (String.eqb x k) eqn:E.
      * apply String.eqb_eq in E. subst x.
        specialize (Hx k). rewrite Hk in Hx.
        rewrite get_set_same in Hx. exists sub'. auto.
      * apply String.eqb_neq in E. specialize (Hx x).
        rewrite get_set_other in Hx by assumption.
        rewrite get_setdefault_other in Hx by assumption. exact Hx.
Qed.

(** ** Copies: trees up to the addresses of their Commands *)

Lemma erase_dict d : erase (VDict d) = VDict (erase_items d).
Proof. reflexivity. Qed.

Lemma erase_items_keys d : Dict.keys (erase_items d) = Dict.keys d.
Proof.
  unfold Dict.keys, erase_items. rewrite map_map. reflexivity.
Qed.

Lemma erase_items_values d :
  Dict.values (erase_items d) = map erase (Dict.values d).
Proof.
  unfold Dict.values, erase_items. now rewrite !map_map.
Qed.

Lemma erase_items_get k d :
  Dict.get k (erase_items d) = option_map erase (Dict.get k d).
Proof.
  induction d as [| [k' v] rest IH]; simpl; [reflexivity |].
  destruct (String.eqb k k'); [reflexivity | exact IH].
Qed.

Lemma erase_items_set k v d :
  erase_items (Dict.set k v d) = Dict.set k (erase v) (erase_items d).
Proof.
  induction d as [| [k' v'] rest IH]; simpl; [reflexivity |].
  destruct (String.eqb k k'); simpl; [reflexivity | now rewrite IH].
Qed.

Lemma erase_command_inv v c :
  erase v = VCmd 0 c -> exists id, v = VCmd id c.
Proof.
  destruct v as [id c' | items]; simpl; [| discriminate].
  intros [= ->]. now exists id.
Qed.

Lemma erase_dict_inv v d :
  erase v = VDict d -> exists items, v = VDict items /\ erase_items items = d.
Proof.
  destruct v as [id c' | items]; simpl; [discriminate |].
  intros [= <-]. now exists items.
Qed.

Lemma alias_names_erase v : alias_names (erase v) = alias_names v.
Proof. destruct v; reflexivity. Qed.

Lemma top_names_erase d : top_names (erase_items d) = top_names d.
Proof.
  induction d as [| [k v] rest IH]; simpl; [reflexivity |].
  now rewrite alias_names_erase, IH.
Qed.

Lemma add_aliases_erase d v :
  erase_items (add_aliases d v) = add_aliases (erase_items d) (erase v).
Proof.
  destruct v as [id c | items]; simpl; [| reflexivity].
  generalize d. induction (aliases c) as [| a als IH]; intros d0; simpl.
  - reflexivity.
  - rewrite IH. now rewrite erase_items_set.
Qed.

Lemma fold_add_aliases_erase vs :
  forall acc,
    erase_items (fold_left add_aliases vs acc)
    = fold_left add_aliases (map erase vs) (erase_items acc).
Proof.
  induction vs as [| v rest IH]; intros acc; simpl; [reflexivity |].
  now rewrite IH, add_aliases_erase.
Qed.

Lemma expand_aliases_erase d :
  erase_items (expand_aliases d) = expand_aliases (erase_items d).
Proof.
  unfold expand_aliases. now rewrite fold_add_aliases_erase, erase_items_values.
Qed.

(** [deepcopy] step by step through the entries of a dictionary. *)
Lemma deepcopy_cons k v rest memo n :
  deepcopy (VDict ((k, v) :: rest)) memo n
  = let '(v', memo1, n1) := deepcopy v memo n in
    let '(r', memo2, n2) := deepcopy (VDict rest) memo1 n1 in
    (VDict ((k, v') :: items_of r'), memo2, n2).
Proof.
  simpl. destruct (deepcopy v memo n) as [[v' memo1] n1].
  match goal with
  | |- context [?f rest memo1 n1] =>
      destruct (f rest memo1 n1) as [[r' memo2] n2]
  end.
  reflexivity.
Qed.

Lemma deepcopy_is_dict d memo n :
  exists d', fst (fst (deepcopy (VDict d) memo n)) = VDict d'.
Proof.
  simpl.
  match goal with
  | |- context [?f d memo n] => destruct (f d memo n) as [[d' memo'] n']
  end.
  now exists d'.
Qed.

(** A deep copy has the keys and the Commands of the original. *)
Lemma deepcopy_erase x :
  forall memo n, erase (fst (fst (deepcopy x memo n))) = erase x.
Proof.
  induction x as [id c | items IH] using value_tree_ind; intros memo n.
  - simpl. destruct (Store.get id memo); reflexivity.
  - revert memo n. induction items as [| [k v] rest IHrest]; intros memo n.
    + reflexivity.
    + inversion IH as [| ? ? Hv Hrest]; subst. simpl in Hv.
      rewrite deepcopy_cons.
      specialize (Hv memo n).
      destruct (deepcopy v memo n) as [[v' memo1] n1]. simpl in Hv.
      specialize (IHrest Hrest memo1 n1).
      destruct (deepcopy_is_dict rest memo1 n1) as [d' Hd'].
      destruct (deepcopy (VDict rest) memo1 n1) as [[r' memo2] n2].
      simpl in Hd'. subst r'. simpl in IHrest. simpl.
      injection IHrest as IHrest. now rewrite Hv, IHrest.
Qed.

Lemma build_aliases_erase cmds n :
  erase_items (fst (build_aliases cmds n)) = erase_items (expand_aliases cmds).
Proof.
  unfold build_aliases.
  pose proof (deepcopy_erase (VDict cmds) [] n) as Hc.
  destruct (deepcopy_is_dict cmds [] n) as [d' Hd'].
  destruct (deepcopy (VDict cmds) [] n) as [[copy memo] n'].
  cbn [fst snd] in *. subst copy. cbn [items_of].
  rewrite !erase_dict in Hc. injection Hc as Hc.
  rewrite !expand_aliases_erase. fold (erase_items d') in Hc.
  fold (erase_items cmds) in Hc. now rewrite Hc.
Qed.

(** ** Dictionaries with distinct keys *)

Lemma unique_keys_dict d :
  unique_keys (VDict d) = true
  <-> NoDup (Dict.keys d) /\ Forall (fun kv => unique_keys (snd kv) = true) d.
Proof.
  simpl. rewrite andb_true_iff, nodupb_NoDup, forallb_forall, Forall_forall.
  reflexivity.
Qed.

Lemma unique_keys_erase v : unique_keys (erase v) = unique_keys v.
Proof.
  induction v as [id c | items IH] using value_tree_ind; [reflexivity |].
  simpl. rewrite map_map. simpl. f_equal.
  induction items as [| [k v] rest IHrest]; [reflexivity |].
  inversion IH as [| ? ? Hv Hrest]; subst. simpl in *.
  now rewrite Hv, IHrest.
Qed.

Lemma unique_keys_get d k v :
  unique_keys (VDict d) = true -> Dict.get k d = Some v ->
  unique_keys v = true.
Proof.
  intros Hu Hget. apply unique_keys_dict in Hu. destruct Hu as [_ Hall].
  apply get_some_in in Hget. rewrite Forall_forall in Hall.
  exact (Hall _ Hget).
Qed.

Lemma forall_set {A : Type} (P : string * A -> Prop) k v (d : list (string * A)) :
  (forall k', P (k', v)) -> Forall P d -> Forall P (Dict.set k v d).
Proof.
  intros Hv. induction d as [| [k' v'] rest IH]; simpl; intros Hall.
  - constructor; [apply Hv | constructor].
  - inversion Hall; subst.
    destruct (String.eqb k k'); constructor; auto.
Qed.

Lemma unique_keys_set_command d k id c :
  unique_keys (VDict d) = true ->
  unique_keys (VDict (Dict.set k (VCmd id c) d)) = true.
Proof.
  rewrite !unique_keys_dict. intros [Hnd Hall]. split.
  - now apply keys_set_nodup.
  - apply forall_set; [reflexivity | assumption].
Qed.

Lemma unique_keys_add_aliases d v :
  unique_keys (VDict d) = true -> unique_keys (VDict (add_aliases d v)) = true.
Proof.
  destruct v as [id c | items]; simpl add_aliases; [| trivial].
  generalize d. induction (aliases c) as [| a als IH]; intros d0 Hu.
  - exact Hu.
  - simpl. apply IH. now apply unique_keys_set_command.
Qed.

Lemma unique_keys_expand d :
  unique_keys (VDict d) = true ->
  unique_keys (VDict (expand_aliases d)) = true.
Proof.
  unfold expand_aliases. generalize (Dict.values d).
  intros vs. revert d. induction vs as [| v rest IH]; intros d Hu.
  - exact Hu.
  - simpl. apply IH. now apply unique_keys_add_aliases.
Qed.

Lemma unique_keys_build cmds n :
  unique_keys (VDict cmds) = true ->
  unique_keys (VDict (fst (build_aliases cmds n))) = true.
Proof.
  intros Hu.
  rewrite <- unique_keys_erase, erase_dict, build_aliases_erase.
  rewrite <- erase_dict, unique_keys_erase. now apply unique_keys_expand.
Qed.

(** ** Alias expansion *)

Lemma get_fold_set (v : value) (als : list string) :
  forall acc x,
    Dict.get x (fold_left (fun acc a => Dict.set a v acc) als acc)
    = if existsb (String.eqb x) als then Some v else Dict.get x acc.
Proof.
  induction als as [| a rest IH]; intros acc x; simpl; [reflexivity |].
  rewrite IH, get_set.
  destruct (String.eqb x a), (existsb (String.eqb x) rest); reflexivity.
Qed.

Lemma get_add_aliases acc v x :
  Dict.get x (add_aliases acc v)
  = if existsb (String.eqb x) (alias_names v) then Some v else Dict.get x acc.
Proof.
  destruct v as [id c | items]; simpl; [| reflexivity].
  apply get_fold_set.
Qed.

Lemma existsb_eqb_in x l : existsb (String.eqb x) l = true <-> In x l.
Proof.
  rewrite existsb_exists. split.
  - intros [y [Hin Heq]]. apply String.eqb_eq in Heq. now subst.
  - intros Hin. exists x. split; [assumption | apply String.eqb_refl].
Qed.

Lemma existsb_eqb_notin x l : ~ In x l -> existsb (String.eqb x) l = false.
Proof.
  intros Hn. destruct (existsb (String.eqb x) l) eqn:E; [| reflexivity].
  apply existsb_eqb_in in E. tauto.
Qed.

Lemma get_fold_add_aliases_other vs :
  forall acc x,
    (forall v, In v vs -> ~ In x (alias_names v)) ->
    Dict.get x (fold_left add_aliases vs acc) = Dict.get x acc.
Proof.
  induction vs as [| v rest IH]; intros acc x Hn; simpl; [reflexivity |].
  rewrite IH by (intros v' Hin; apply Hn; now right).
  rewrite get_add_aliases, existsb_eqb_notin; [reflexivity |].
  apply Hn. now left.
Qed.

(** An expansion only ever stores Commands: a sub-tree found in it was
    there before. *)
Lemma get_fold_add_aliases_dict vs :
  forall acc x sub,
    Dict.get x (fold_left add_aliases vs acc) = Some (VDict sub) ->
    Dict.get x acc = Some (VDict sub).
Proof.
  induction vs as [| v rest IH]; intros acc x sub Hget; simpl in *.
  - exact Hget.
  - apply IH in Hget. rewrite get_add_aliases in Hget.
    destruct (existsb (String.eqb x) (alias_names v)) eqn:E; [| exact Hget].
    destruct v as [id c | items]; [discriminate | discriminate].
Qed.

Lemma keys_fold_set (v : value) (als : list string) :
  forall acc x,
    In x (Dict.keys (fold_left (fun acc a => Dict.set a v acc) als acc))
    <-> In x (Dict.keys acc) \/ In x als.
Proof.
  induction als as [| a rest IH]; intros acc x; simpl.
  - tauto.
  - rewrite IH, keys_set_in. intuition.
Qed.

Lemma keys_add_aliases acc v x :
  In x (Dict.keys (add_aliases acc v))
  <-> In x (Dict.keys acc) \/ In x (alias_names v).
Proof.
  destruct v as [id c | items]; simpl.
  - apply keys_fold_set.
  - tauto.
Qed.

Lemma keys_fold_add_aliases vs :
  forall acc x,
    In x (Dict.keys (fold_left add_aliases vs acc))
    <-> In x (Dict.keys acc) \/ exists v, In v vs /\ In x (alias_names v).
Proof.
  induction vs as [| v rest IH]; intros acc x; simpl.
  - split; [tauto | intros [H | [v [[] _]]]; exact H].
  - rewrite IH, keys_add_aliases. split.
    + intros [[H | H] | [v' [Hin Hv']]].
      * now left.
      * right. exists v. auto.
      * right. exists v'. auto.
    + intros [H | [v' [[-> | Hin] Hv']]].
      * left. now left.
      * left. now right.
      * right. exists v'. auto.
Qed.

Lemma nodup_keys_fold_add_aliases vs :
  forall acc,
    NoDup (Dict.keys acc) ->
    NoDup (Dict.keys (fold_left add_aliases vs acc)).
Proof.
  induction vs as [| v rest IH]; intros acc Hnd; simpl; [exact Hnd |].
  apply IH. destruct v as [id c | items]; simpl; [| exact Hnd].
  generalize dependent acc.
  induction (aliases c) as [| a als IHals]; intros acc Hnd; simpl.
  - exact Hnd.
  - apply IHals. now apply keys_set_nodup.
Qed.

Lemma keys_in_top_names d x : In x (Dict.keys d) -> In x (top_names d).
Proof.
  unfold Dict.keys, top_names. rewrite in_map_iff, in_flat_map.
  intros [[k v] [<- Hin]]. exists (k, v). split; [assumption | now left].
Qed.

Lemma alias_in_top_names d v x :
  In v (Dict.values d) -> In x (alias_names v) -> In x (top_names d).
Proof.
  unfold Dict.values, top_names. rewrite in_map_iff, in_flat_map.
  intros [[k v'] [<- Hin]] Hx. exists (k, v'). split; [assumption |].
  now right.
Qed.

Lemma keys_expand_in_top_names d x :
  In x (Dict.keys (expand_aliases d)) -> In x (top_names d).
Proof.
  unfold expand_aliases. rewrite keys_fold_add_aliases.
  intros [H | [v [Hin Hx]]].
  - now apply keys_in_top_names.
  - now apply alias_in_top_names with (v := v).
Qed.

Lemma nodup_top_names_keys d : NoDup (top_names d) -> NoDup (Dict.keys d).
Proof.
  induction d as [| [k v] rest IH]; simpl; intros Hnd; [constructor |].
  inversion Hnd as [| ? ? Hnotin Hrest]; subst.
  apply NoDup_app_remove_l in Hrest. constructor; [| now apply IH].
  intros Hin. apply Hnotin. apply in_or_app. right.
  now apply keys_in_top_names.
Qed.

Lemma nodup_app_disjoint {A : Type} (l1 l2 : list A) (x : A) :
  NoDup (l1 ++ l2) -> In x l1 -> In x l2 -> False.
Proof.
  induction l1 as [| y rest IH]; simpl; intros Hnd Hin1 Hin2; [tauto |].
  inversion Hnd as [| ? ? Hnotin Hrest]; subst.
  destruct Hin1 as [-> | Hin1].
  - apply Hnotin. apply in_or_app. now right.
  - now apply IH.
Qed.

(** With pairwise distinct names, the expansion leads every name of a
    top-level Command, its key and each alias, to that very Command. *)
Lemma expand_aliases_names d k id c :
  NoDup (top_names d) ->
  Dict.get k d = Some (VCmd id c) ->
  forall n, In n (k :: aliases c) ->
            Dict.get n (expand_aliases d) = Some (VCmd id c).
Proof.
  intros Hnd Hget n Hn.
  pose proof (get_some_in _ _ _ Hget) as Hin.
  destruct (in_split _ _ Hin) as [d1 [d2 Hsplit]].
  unfold expand_aliases.
  assert (Dict.values d
          = Dict.values d1 ++ VCmd id c :: Dict.values d2) as Hvals.
  { rewrite Hsplit. unfold Dict.values. now rewrite map_app. }
  assert (top_names d
          = top_names d1 ++ (k :: aliases c) ++ top_names d2) as Hnames.
  { rewrite Hsplit. unfold top_names. rewrite flat_map_app. reflexivity. }
  rewrite Hnames in Hnd.
  destruct Hn as [<- | Ha].
  - (* the key itself is nobody's alias *)
    rewrite get_fold_add_aliases_other; [exact Hget |].
    intros v Hv Hk. rewrite Hvals in Hv.
    apply in_app_or in Hv. destruct Hv as [Hv | [<- | Hv]].
    + apply (nodup_app_disjoint _ _ k Hnd).
      * now apply alias_in_top_names with (v := v).
      * simpl. now left.
    + apply NoDup_app_remove_l in Hnd. simpl in Hnd.
      inversion Hnd as [| ? ? Hnotin _]; subst. apply Hnotin.
      apply in_or_app. now left.
    + apply NoDup_app_remove_l in Hnd. simpl in Hnd.
      inversion Hnd as [| ? ? Hnotin _]; subst. apply Hnotin.
      apply in_or_app. right. now apply alias_in_top_names with (v := v).
  - (* an alias is set by its Command and by no later value *)
    rewrite Hvals, fold_left_app. cbn [fold_left].
    rewrite get_fold_add_aliases_other.
    + rewrite get_add_aliases. cbn [alias_names].
      assert (existsb (String.eqb n) (aliases c) = true) as ->
          by now apply existsb_eqb_in.
      reflexivity.
    + intros v Hv Hk.
      apply NoDup_app_remove_l in Hnd. simpl in Hnd.
      inversion Hnd as [| ? ? _ Hrest]; subst.
      apply (nodup_app_disjoint _ _ n Hrest); [assumption |].
      now apply alias_in_top_names with (v := v).
Qed.

(** ** Resolution in merged trees *)

Lemma parse_loop_erase tokens :
  forall d,
    fst (parse_loop (erase d) tokens)
    = option_map erase (fst (parse_loop d tokens)).
Proof.
  induction tokens as [| cu rest IH]; intros [id c | items]; try reflexivity.
  cbn [erase parse_loop]. fold (erase_items items).
  rewrite erase_items_get.
  destruct (Dict.get cu items) as [d' |]; simpl; [apply IH | reflexivity].
Qed.

Lemma resolves_erase d tokens : resolves (erase d) tokens = resolves d tokens.
Proof.
  unfold resolves. rewrite parse_loop_erase.
  destruct (fst (parse_loop d tokens)); reflexivity.
Qed.

Lemma resolves_same_erasure d d' tokens :
  erase d = erase d' -> resolves d tokens = resolves d' tokens.
Proof.
  intros H. now rewrite <- (resolves_erase d), H, resolves_erase.
Qed.

Lemma resolves_cons items x q :
  resolves (VDict items) (x :: q)
  = match Dict.get x items with
    | Some d => resolves d q
    | None => false
    end.
Proof.
  unfold resolves. simpl. destruct (Dict.get x items); reflexivity.
Qed.

Lemma resolves_command id c q : resolves (VCmd id c) q = true.
Proof. destruct q; reflexivity. Qed.

Lemma resolves_nil d : resolves d [] = true.
Proof. destruct d; reflexivity. Qed.

(** A successful merge makes no token sequence resolvable that did not
    resolve in one of the two trees. *)
Lemma merge_resolves (tokens : list string) :
  forall (da b : dict) (a' : value),
    unique_keys (VDict b) = true ->
    deep_merge (VDict da) (VDict b) = (a', None) ->
    tokens <> [] ->
    resolves a' tokens = true ->
    resolves (VDict da) tokens = true \/ resolves (VDict b) tokens = true.
Proof.
  induction tokens as [| x q IH]; intros da b a' Hu Hmerge Hne Hres;
    [contradiction |].
  pose proof Hu as Hu'. apply unique_keys_dict in Hu'. destruct Hu' as [Hnd _].
  destruct (deep_merge_top _ _ _ Hnd Hmerge) as [da' [-> Hx]].
  specialize (Hx x). rewrite !resolves_cons in *.
  destruct (Dict.get x b) as [[id c | bv] |] eqn:Eb.
  - right. apply resolves_command.
  - destruct Hx as [sub' [Hsub Hget]]. rewrite Hget in Hres.
    destruct q as [| y q'].
    + right. apply resolves_nil.
    + pose proof (unique_keys_get _ _ _ Hu Eb) as Hubv.
      destruct (Dict.get x da) as [[id c | ax] |] eqn:Ea.
      * apply deep_merge_into_command in Hsub. destruct Hsub as [_ ->].
        left. exact Hres.
      * destruct (IH ax bv sub' Hubv Hsub) as [H | H];
          [discriminate | exact Hres | now left | now right].
      * destruct (IH [] bv sub' Hubv Hsub) as [H | H];
          [discriminate | exact Hres | | now right].
        rewrite resolves_cons in H. discriminate.
  - rewrite Hx in Hres. now left.
Qed.

(** ** The loop of [refresh] *)

Lemma merge_all_cons v rest acc n :
  merge_all (v :: rest) acc n
  = match deep_merge acc (VDict (fst (build_aliases v n))) with
    | (acc', None) => merge_all rest acc' (snd (build_aliases v n))
    | (acc', Some e) => (acc', Some e, snd (build_aliases v n))
    end.
Proof. simpl. destruct (build_aliases v n). reflexivity. Qed.

Lemma merge_all_app v1 :
  forall v2 acc n,
    merge_all (v1 ++ v2) acc n
    = match merge_all v1 acc n with
      | (acc1, None, n1) => merge_all v2 acc1 n1
      | (acc1, Some e, n1) => (acc1, Some e, n1)
      end.
Proof.
  induction v1 as [| v rest IH]; intros v2 acc n; [reflexivity |].
  rewrite <- app_comm_cons, !merge_all_cons.
  destruct (deep_merge acc (VDict (fst (build_aliases v n)))) as [acc' [e |]].
  - reflexivity.
  - apply IH.
Qed.

Lemma build_aliases_keys cmds n :
  Dict.keys (fst (build_aliases cmds n)) = Dict.keys (expand_aliases cmds).
Proof.
  rewrite <- erase_items_keys, build_aliases_erase. apply erase_items_keys.
Qed.

Lemma build_aliases_nodup_keys cmds n :
  NoDup (Dict.keys cmds) -> NoDup (Dict.keys (fst (build_aliases cmds n))).
Proof.
  intros Hnd. rewrite build_aliases_keys.
  unfold expand_aliases. now apply nodup_keys_fold_add_aliases.
Qed.

(** Collections that do not claim the name [x] leave the entry of [x]
    alone. *)
Lemma merge_all_frame (x : string) (vs : list dict) :
  forall da n acc' n',
    merge_all vs (VDict da) n = (acc', None, n') ->
    (forall v, In v vs -> NoDup (Dict.keys v)) ->
    (forall v, In v vs -> ~ In x (top_names v)) ->
    exists da', acc' = VDict da' /\ Dict.get x da' = Dict.get x da.
Proof.
  induction vs as [| v rest IH]; intros da n acc' n' Hmerge Hnd Hx.
  - injection Hmerge as <- _. now exists da.
  - rewrite merge_all_cons in Hmerge.
    destruct (deep_merge (VDict da) (VDict (fst (build_aliases v n))))
      as [acc1 [e |]] eqn:Hstep; [discriminate |].
    assert (NoDup (Dict.keys (fst (build_aliases v n)))) as Hndb.
    { apply build_aliases_nodup_keys. apply Hnd. now left. }
    destruct (deep_merge_top _ _ _ Hndb Hstep) as [da1 [-> Hget]].
    specialize (Hget x).
    assert (Dict.get x (fst (build_aliases v n)) = None) as Hnone.
    { apply get_none_keys. rewrite build_aliases_keys. intros Hin.
      apply keys_expand_in_top_names in Hin. apply (Hx v); [now left | exact Hin]. }
    rewrite Hnone in Hget.
    destruct (IH da1 _ acc' n' Hmerge) as [da' [-> Hda']].
    + intros v' Hin. apply Hnd. now right.
    + intros v' Hin. apply Hx. now right.
    + exists da'. split; [reflexivity | congruence].
Qed.

(** What resolves in the rebuilt namespace resolves in the starting
    namespace or in the alias expansion of one of the collections. *)
Lemma merge_all_resolves (tokens : list string) (vs : list dict) :
  forall da n acc' n',
    merge_all vs (VDict da) n = (acc', None, n') ->
    (forall v, In v vs -> unique_keys (VDict v) = true) ->
    tokens <> [] ->
    resolves acc' tokens = true ->
    resolves (VDict da) tokens = true
    \/ exists v, In v vs /\ resolves (VDict (expand_aliases v)) tokens = true.
Proof.
  induction vs as [| v rest IH]; intros da n acc' n' Hmerge Hu Hne Hres.
  - injection Hmerge as <- _. now left.
  - rewrite merge_all_cons in Hmerge.
    destruct (deep_merge (VDict da) (VDict (fst (build_aliases v n))))
      as [acc1 [e |]] eqn:Hstep; [discriminate |].
    assert (unique_keys (VDict (fst (build_aliases v n))) = true) as Hub.
    { apply unique_keys_build. apply Hu. now left. }
    pose proof Hub as Hnd. apply unique_keys_dict in Hnd. destruct Hnd as [Hnd _].
    destruct (deep_merge_top _ _ _ Hnd Hstep) as [da1 [-> _]].
    destruct (IH da1 _ acc' n' Hmerge) as [H1 | [v' [Hin Hv']]];
      [intros v' Hin; apply Hu; now right | assumption | assumption | |].
    + destruct (merge_resolves tokens _ _ _ Hub Hstep Hne H1) as [H | H].
      * now left.
      * right. exists v. split; [now left |].
        rewrite <- H. apply resolves_same_erasure.
        rewrite !erase_dict. f_equal. symmetry. apply build_aliases_erase.
    + right. exists v'. split; [now right | assumption].
Qed.

Lemma deep_merge_is_dict (b : dict) :
  forall da, exists da', fst (deep_merge (VDict da) (VDict b)) = VDict da'.
Proof.
  induction b as [| [k [id c | bv]] rest IH]; intros da.
  - now exists da.
  - rewrite deep_merge_cons_cmd. apply IH.
  - rewrite deep_merge_cons_dict.
    destruct (deep_merge
                match Dict.get k (Dict.setdefault k (VDict []) da) with
                | Some s => s
                | None => VDict []
                end (VDict bv)) as [sub' [e |]].
    + eexists. reflexivity.
    + apply IH.
Qed.

Lemma merge_all_is_dict (vs : list dict) :
  forall da n, exists da', fst (fst (merge_all vs (VDict da) n)) = VDict da'.
Proof.
  induction vs as [| v rest IH]; intros da n.
  - now exists da.
  - rewrite merge_all_cons.
    destruct (deep_merge_is_dict (fst (build_aliases v n)) da) as [da1 Hda1].
    destruct (deep_merge (VDict da) (VDict (fst (build_aliases v n))))
      as [acc1 [e |]]; simpl in Hda1; subst acc1.
    + now exists da1.
    + apply IH.
Qed.

(** A successful [refresh] is a successful run of the merge loop from the
    empty namespace. *)
Lemma refresh_ok (w w' : World) :
  refresh w = (Ret tt, w') ->
  exists da n',
    merge_all (Dict.values (cmds (session w))) (VDict []) (next_id w)
    = (VDict da, None, n')
    /\ __cmds (session w') = da
    /\ cmds (session w') = cmds (session w).
Proof.
  unfold refresh.
  destruct (merge_all_is_dict (Dict.values (cmds (session w))) [] (next_id w))
    as [da Hda].
  destruct (merge_all (Dict.values (cmds (session w))) (VDict []) (next_id w))
    as [[acc [e |]] n']; [discriminate |].
  simpl in Hda. subst acc. intros [= <-]. exists da, n'. auto.
Qed.

Lemma pop_incl {A : Type} (k : string) (d : list (string * A)) e :
  In e (Dict.pop k d) -> In e d.
Proof.
  induction d as [| [k' v'] rest IH]; simpl; [tauto |].
  destruct (String.eqb k k'); simpl; intuition.
Qed.

Lemma lookup_command_nonempty d path id c :
  lookup_path (VDict d) path = Some (VCmd id c) -> path <> [].
Proof. destruct path; [discriminate | discriminate]. Qed.

(** ** Removing a collection rebuilds the namespace *)

(** C4.  After a successful [remove], the registered collections are the
    remaining ones and the merged namespace is the one built from them
    alone, starting from the empty tree.  A path that leads to a Command in
    the removed collection and that resolves in none of the remaining
    collections no longer resolves: [parse] raises the [KeyError] "Unknown
    command". *)
Theorem remove_rebuilds (w w' : World) (key : string) (removed : dict)
    (path : list string) (id : loc) (c : Command) :
  Dict.get key (cmds (session w)) = Some removed ->
  forallb (fun e => unique_keys (VDict (snd e))) (cmds (session w)) = true ->
  lookup_path (VDict (expand_aliases removed)) path = Some (VCmd id c) ->
  forallb (fun e => negb (resolves (VDict (expand_aliases (snd e))) path))
    (Dict.pop key (cmds (session w))) = true ->
  remove key w = (Ret tt, w') ->
  cmds (session w') = Dict.pop key (cmds (session w))
  /\ __cmds (session w') = rebuilt (Dict.pop key (cmds (session w))) (next_id w)
  /\ forall args,
      Store.get args (lists w') = Some path ->
      exists w'', parse args w' = (Raise (unknown_command path), w'').
Proof.
  intros Hreg Hunique Hpath Honly Hremove.
  unfold remove in Hremove. rewrite Hreg in Hremove.
  apply refresh_ok in Hremove. cbn [session set_session cmds set_cmds next_id]
    in Hremove.
  destruct Hremove as [da [n' [Hmerge [Hns Hcmds]]]].
  split; [exact Hcmds |]. split.
  - unfold rebuilt. rewrite Hmerge. exact Hns.
  - intros args Hargs.
    assert (resolves (VDict da) path = false) as Hno.
    { destruct (resolves (VDict da) path) eqn:Hres; [| reflexivity].
      exfalso.
      destruct (merge_all_resolves path _ _ _ _ _ Hmerge) as [H | [v [Hin Hv]]].
      - intros v Hin. unfold Dict.values in Hin. apply in_map_iff in Hin.
        destruct Hin as [e [<- Hin]]. apply pop_incl in Hin.
        rewrite forallb_forall in Hunique. now apply Hunique.
      - now apply lookup_command_nonempty in Hpath.
      - exact Hres.
      - destruct path as [| x q]; [discriminate | discriminate].
      - unfold Dict.values in Hin. apply in_map_iff in Hin.
        destruct Hin as [e [<- Hin]].
        rewrite forallb_forall in Honly. specialize (Honly _ Hin).
        rewrite Hv in Honly. discriminate. }
    unfold resolves in Hno. rewrite <- Hns in Hno.
    destruct (parse_loop (VDict (__cmds (session w'))) path) as [[d |] rest]
      eqn:Hloop; [discriminate |].
    eexists. now apply parse_missing with (rest := rest).
Qed.

Lemma remove_rebuilds_witness :
  Dict.get "plugin"
    (cmds (session (Sample.with_args ["plug"; "run"] Sample.w_plugin)))
  = Some Sample.plugin
  /\ lookup_path (VDict (expand_aliases Sample.plugin)) ["plug"; "run"]
     = Some (VCmd 9 Sample.Y)
  /\ fst (parse 1 (Sample.with_args ["plug"; "run"] Sample.w_plugin))
     = Ret (VCmd 8 Sample.Y, 2)
  /\ remove "plugin" (Sample.with_args ["plug"; "run"] Sample.w_plugin)
     = (Ret tt,
        Sample.after (remove "plugin")
          (Sample.with_args ["plug"; "run"] Sample.w_plugin))
  /\ exists w'',
       parse 1 (Sample.after (remove "plugin")
                  (Sample.with_args ["plug"; "run"] Sample.w_plugin))
       = (Raise (unknown_command ["plug"; "run"]), w'').
Proof.
  split; [reflexivity | split; [reflexivity | split; [reflexivity |]]].
  split; [reflexivity |].
  destruct (remove_rebuilds
              (Sample.with_args ["plug"; "run"] Sample.w_plugin)
              (Sample.after (remove "plugin")
                 (Sample.with_args ["plug"; "run"] Sample.w_plugin))
              "plugin" Sample.plugin ["plug"; "run"] 9 Sample.Y
              eq_refl eq_refl eq_refl eq_refl eq_refl)
    as [_ [_ Hunknown]].
  apply Hunknown. reflexivity.
Defined.

(** The condition on the remaining collections is about resolution: a
    remaining collection that holds a Command under a prefix of the path
    resolves the path, the rest of it being arguments, and goes on doing so
    after the removal. *)
Lemma remove_keeps_prefix_command :
  lookup_path (VDict (expand_aliases Sample.x_tree_p)) ["x"; "p"]
  = Some (VCmd 1 Sample.X)
  /\ resolves (VDict (expand_aliases Sample.y_cmd)) ["x"; "p"] = true
  /\ fst (parse 1
            (Sample.after (remove "__init__")
               (Sample.with_args ["x"; "p"]
                  (Sample.after (extend "plug" Sample.y_cmd)
                     (Sample.after (init Sample.x_tree_p) Sample.blank)))))
     = Ret (VCmd 3 Sample.Y, 2).
Proof. repeat split. Qed.

(** ** Aliases of top-level Commands *)

Lemma nodup_flat_map_in {A B : Type} (f : A -> list B) (l : list A) (v : A) :
  NoDup (flat_map f l) -> In v l -> NoDup (f v).
Proof.
  intros Hnd Hin. destruct (in_split _ _ Hin) as [l1 [l2 ->]].
  rewrite flat_map_app in Hnd. simpl in Hnd.
  apply NoDup_app_remove_l in Hnd. now apply NoDup_app_remove_r in Hnd.
Qed.

Lemma nodup_names_of_entry d k v :
  NoDup (top_names d) -> Dict.get k d = Some v -> NoDup (k :: alias_names v).
Proof.
  intros Hnd Hget. apply get_some_in in Hget.
  exact (nodup_flat_map_in _ _ _ Hnd Hget).
Qed.

Lemma names_of_entry_in_top_names d k v x :
  Dict.get k d = Some v -> In x (k :: alias_names v) -> In x (top_names d).
Proof.
  intros Hget Hx. apply get_some_in in Hget.
  unfold top_names. rewrite in_flat_map. now exists (k, v).
Qed.

(** The alias-expanded copy of a collection with pairwise distinct names
    holds, under the key and under every alias of a top-level Command, one
    and the same copy of that Command. *)
Lemma build_aliases_names cmds n0 k id c :
  NoDup (top_names cmds) ->
  Dict.get k cmds = Some (VCmd id c) ->
  exists id',
    forall n, In n (k :: aliases c) ->
              Dict.get n (fst (build_aliases cmds n0)) = Some (VCmd id' c).
Proof.
  intros Hnd Hget. unfold build_aliases.
  pose proof (deepcopy_erase (VDict cmds) [] n0) as Hc.
  destruct (deepcopy_is_dict cmds [] n0) as [d' Hd'].
  destruct (deepcopy (VDict cmds) [] n0) as [[copy memo] n'].
  cbn [fst snd] in *. subst copy. cbn [items_of].
  rewrite !erase_dict in Hc. injection Hc as Hc.
  fold (erase_items d') in Hc. fold (erase_items cmds) in Hc.
  assert (exists id', Dict.get k d' = Some (VCmd id' c)) as [id' Hget'].
  { pose proof (erase_items_get k d') as H1.
    rewrite Hc, erase_items_get, Hget in H1. simpl in H1.
    destruct (Dict.get k d') as [v' |]; [| discriminate].
    simpl in H1. injection H1 as H1. symmetry in H1.
    apply erase_command_inv in H1. destruct H1 as [id' ->]. now exists id'. }
  exists id'. apply expand_aliases_names; [| exact Hget'].
  rewrite <- top_names_erase, Hc, top_names_erase. exact Hnd.
Qed.

(** *** The addresses a deep copy gives *)














(** ** Collisions between collections *)

(** What a successful merge of the collection registered last does at a
    top-level key.  Let [later] be the alias-expanded copy of that
    collection and [earlier] the namespace merged from the collections
    before it: a Command of [later] is what the merged namespace holds under
    its key, whatever [earlier] held there; and where both hold a sub-tree,
    the merged namespace holds their merge, in which every entry of the
    earlier sub-tree that the later one lacks is kept. *)
Lemma later_command_replaces (w w' : World) (r : list (string * dict))
    (coll_name : string) (coll earlier later : dict) (n1 n2 : loc) :
  cmds (session w) = r ++ [(coll_name, coll)] ->
  unique_keys (VDict coll) = true ->
  merge_all (Dict.values r) (VDict []) (next_id w) = (VDict earlier, None, n1) ->
  build_aliases coll n1 = (later, n2) ->
  refresh w = (Ret tt, w') ->
  forall k,
    (forall id c,
        Dict.get k later = Some (VCmd id c) ->
        Dict.get k (__cmds (session w')) = Some (VCmd id c))
    /\ (forall av bv,
          Dict.get k earlier = Some (VDict av) ->
          Dict.get k later = Some (VDict bv) ->
          exists m,
            deep_merge (VDict av) (VDict bv) = (VDict m, None)
            /\ Dict.get k (__cmds (session w')) = Some (VDict m)
            /\ forall y, Dict.get y bv = None -> Dict.get y m = Dict.get y av).
Proof.
  intros Hreg Hunique Hearlier Hlater Hrefresh k.
  apply refresh_ok in Hrefresh.
  destruct Hrefresh as [da [n' [Hmerge [Hns _]]]].
  rewrite Hreg in Hmerge. unfold Dict.values in Hmerge.
  rewrite map_app in Hmerge. fold (Dict.values r) in Hmerge.
  rewrite merge_all_app, Hearlier in Hmerge. simpl map in Hmerge.
  rewrite merge_all_cons, Hlater in Hmerge. cbn [fst snd] in Hmerge.
  destruct (deep_merge (VDict earlier) (VDict later)) as [acc [e |]] eqn:Hstep;
    [discriminate |].
  injection Hmerge as -> _.
  assert (unique_keys (VDict later) = true) as Hul.
  { pose proof (unique_keys_build coll n1 Hunique) as H.
    now rewrite Hlater in H. }
  pose proof Hul as Hnd. apply unique_keys_dict in Hnd. destruct Hnd as [Hnd _].
  destruct (deep_merge_top _ _ _ Hnd Hstep) as [da' [[= <-] Htop]].
  specialize (Htop k). rewrite Hns. split.
  - intros id c Hget. now rewrite Hget in Htop.
  - intros av bv Hav Hbv. rewrite Hbv, Hav in Htop.
    destruct Htop as [sub' [Hsub Hget]].
    pose proof (unique_keys_get _ _ _ Hul Hbv) as Hubv.
    apply unique_keys_dict in Hubv. destruct Hubv as [Hndbv _].
    destruct (deep_merge_top _ _ _ Hndbv Hsub) as [m [-> Hm]].
    exists m. split; [exact Hsub | split; [exact Hget |]].
    intros y Hy. specialize (Hm y). now rewrite Hy in Hm.
Qed.

(** C1.  A later Command replaces an earlier Command, and an earlier
    sub-tree, under the same top-level key: the last registration wins.  In
    the other direction it does not: with the Command [X] registered under
    [x] and a collection holding a sub-tree under [x] registered later,
    [a.setdefault(k, {})] finds the Command and the merge goes on inside
    it.  The rebuild raises, [TypeError] for a sub-tree of Commands and
    [AttributeError] for a sub-tree of sub-trees, and the key still holds
    the Command; with an empty sub-tree nothing is raised and the key still
    holds the Command. *)
Theorem command_then_subtree_fails :
  fst (extend "plug" Sample.y_cmd
         (Sample.after (init Sample.x_cmd) Sample.blank)) = Ret tt
  /\ Dict.get "x"
       (__cmds (session
          (Sample.after (extend "plug" Sample.y_cmd)
             (Sample.after (init Sample.x_cmd) Sample.blank))))
     = Some (VCmd 2 Sample.Y)
  /\ fst (extend "plug" Sample.y_cmd
            (Sample.after (init Sample.x_tree_p) Sample.blank)) = Ret tt
  /\ Dict.get "x"
       (__cmds (session
          (Sample.after (extend "plug" Sample.y_cmd)
             (Sample.after (init Sample.x_tree_p) Sample.blank))))
     = Some (VCmd 2 Sample.Y)
  /\ fst (extend "plug" Sample.x_tree_q
            (Sample.after (init Sample.x_cmd) Sample.blank))
     = Raise (TypeError "'Command' object does not support item assignment")
  /\ Dict.get "x"
       (__cmds (session
          (Sample.after (extend "plug" Sample.x_tree_q)
             (Sample.after (init Sample.x_cmd) Sample.blank))))
     = Some (VCmd 1 Sample.X)
  /\ fst (extend "plug" [("x", VDict [("q", VDict [])])]
            (Sample.after (init Sample.x_cmd) Sample.blank))
     = Raise (AttributeError "'Command' object has no attribute 'setdefault'")
  /\ Dict.get "x"
       (__cmds (session
          (Sample.after (extend "plug" [("x", VDict [("q", VDict [])])])
             (Sample.after (init Sample.x_cmd) Sample.blank))))
     = Some (VCmd 1 Sample.X)
  /\ fst (extend "plug" Sample.x_tree_empty
            (Sample.after (init Sample.x_cmd) Sample.blank))
     = Ret tt
  /\ Dict.get "x"
       (__cmds (session
          (Sample.after (extend "plug" Sample.x_tree_empty)
             (Sample.after (init Sample.x_cmd) Sample.blank))))
     = Some (VCmd 1 Sample.X).
Proof. repeat split. Qed.

(** ** Aliases below the top level *)

(** C6, as stated, fails: [go], with the alias [g], is declared inside the
    sub-tree [sub]; after the rebuild [sub go] leads to the Command, but
    there is no entry [g], neither next to it nor at the root. *)
Lemma nested_alias_counterexample :
  aliases Sample.go = ["g"]
  /\ lookup_path (VDict (__cmds (session Sample.w_nested))) ["sub"; "go"]
     = Some (VCmd 0 Sample.go)
  /\ lookup_path (VDict (__cmds (session Sample.w_nested))) ["sub"; "g"] = None
  /\ Dict.get "g" (__cmds (session Sample.w_nested)) = None.
Proof. repeat split. Qed.

Lemma mem_keys {A : Type} (k : string) (d : list (string * A)) :
  Dict.mem k d = true <-> In k (Dict.keys d).
Proof.
  unfold Dict.mem. destruct (Dict.get k d) eqn:E.
  - split; [intros _; now apply get_some_keys with (v := a) | reflexivity].
  - apply get_none_keys in E. split; [discriminate | tauto].
Qed.

(** C6, amended.  The alias expansion works on the top level of the
    collection only.  The keys of the expanded copy are the keys of the
    collection and the aliases of the Commands stored directly in it, and
    nothing else: no alias of a Command nested in a sub-tree becomes a key.
    Every sub-tree of the expanded copy is a sub-tree of the collection
    under the same key, and every sub-tree of the collection whose key is
    not an alias of a top-level Command is found in the expanded copy under
    that key, in both cases with the same keys and the same Commands
    throughout: no entry is added inside a sub-tree. *)
Theorem aliases_top_level_only (cmds : dict) (n : loc) :
  (forall x,
      In x (Dict.keys (fst (build_aliases cmds n)))
      <-> In x (Dict.keys cmds)
          \/ exists k id c, In (k, VCmd id c) cmds /\ In x (aliases c))
  /\ (forall k sub',
        Dict.get k (fst (build_aliases cmds n)) = Some (VDict sub') ->
        exists sub,
          Dict.get k cmds = Some (VDict sub)
          /\ erase (VDict sub') = erase (VDict sub))
  /\ (forall k sub,
        Dict.get k cmds = Some (VDict sub) ->
        (forall k' id c, In (k', VCmd id c) cmds -> ~ In k (aliases c)) ->
        exists sub',
          Dict.get k (fst (build_aliases cmds n)) = Some (VDict sub')
          /\ erase (VDict sub') = erase (VDict sub)).
Proof.
  split; [| split].
  - intros x. rewrite build_aliases_keys. unfold expand_aliases.
    rewrite keys_fold_add_aliases. split.
    + intros [H | [v [Hv Hx]]]; [now left | right].
      unfold Dict.values in Hv. apply in_map_iff in Hv.
      destruct Hv as [[k v0] [<- Hin]]. cbn [snd] in Hx.
      destruct v0 as [id c | items]; [| destruct Hx].
      now exists k, id, c.
    + intros [H | [k [id [c [Hin Hx]]]]]; [now left | right].
      exists (VCmd id c). split; [| exact Hx].
      unfold Dict.values. apply in_map_iff. now exists (k, VCmd id c).
  - intros k sub' Hget.
    pose proof (erase_items_get k (fst (build_aliases cmds n))) as H.
    rewrite Hget, build_aliases_erase, erase_items_get in H. simpl in H.
    destruct (Dict.get k (expand_aliases cmds)) as [v |] eqn:Hexp;
      [| discriminate].
    simpl in H. injection H as H.
    fold (erase_items sub') in H.
    apply erase_dict_inv in H. destruct H as [items [-> Hitems]].
    unfold expand_aliases in Hexp.
    apply get_fold_add_aliases_dict in Hexp.
    exists items. split; [exact Hexp |].
    now rewrite !erase_dict, Hitems.
  - intros k sub Hget Hno.
    assert (Dict.get k (expand_aliases cmds) = Some (VDict sub)) as Hexp.
    { unfold expand_aliases. rewrite get_fold_add_aliases_other; [exact Hget |].
      intros v Hv Hk. unfold Dict.values in Hv. apply in_map_iff in Hv.
      destruct Hv as [[k' v0] [<- Hin]]. cbn [snd] in Hk.
      destruct v0 as [id c | items]; [| destruct Hk].
      exact (Hno k' id c Hin Hk). }
    pose proof (erase_items_get k (fst (build_aliases cmds n))) as H.
    rewrite build_aliases_erase, erase_items_get, Hexp in H. simpl in H.
    destruct (Dict.get k (fst (build_aliases cmds n))) as [v |];
      [| discriminate].
    simpl in H. injection H as H.
    fold (erase_items sub) in H. symmetry in H.
    apply erase_dict_inv in H. destruct H as [items [-> Hitems]].
    exists items. split; [reflexivity |].
    now rewrite !erase_dict, Hitems.
Qed.

Lemma aliases_top_level_only_witness :
  Dict.keys (fst (build_aliases Sample.nested_go 0)) = ["sub"]
  /\ Dict.get "sub" (fst (build_aliases Sample.nested_go 0))
     = Some (VDict [("go", VCmd 0 Sample.go)])
  /\ exists sub,
       Dict.get "sub" Sample.nested_go = Some (VDict sub)
       /\ erase (VDict [("go", VCmd 0 Sample.go)]) = erase (VDict sub).
Proof.
  split; [reflexivity | split; [reflexivity |]].
  destruct (aliases_top_level_only Sample.nested_go 0) as [_ [Hsub _]].
  apply (Hsub "sub"). reflexivity.
Defined.

(* ================================================================== *)
(** * Further properties of the engine *)

(** ** What [parse] returns and when it raises *)

Lemma parse_loop_found tokens :
  forall d r rest,
    parse_loop d tokens = (Some r, rest) ->
    exists path,
      tokens = path ++ rest
      /\ lookup_path d path = Some r
      /\ (is_dict r = true -> rest = []).
Proof.
  induction tokens as [| cu q IH]; intros d r rest Hloop.
  - destruct d; injection Hloop as <- <-; exists []; auto.
  - destruct d as [id c | items].
    + injection Hloop as <- <-. exists []. repeat split. discriminate.
    + simpl in Hloop. destruct (Dict.get cu items) as [d' |] eqn:Hget;
        [| discriminate].
      destruct (IH _ _ _ Hloop) as [path [-> [Hpath Hrest]]].
      exists (cu :: path). simpl. rewrite Hget. auto.
Qed.

Lemma parse_loop_missing tokens :
  forall d rest,
    parse_loop d tokens = (None, rest) ->
    exists path cu m,
      tokens = path ++ cu :: rest
      /\ lookup_path d path = Some (VDict m)
      /\ Dict.get cu m = None.
Proof.
  induction tokens as [| cu q IH]; intros d rest Hloop.
  - destruct d; discriminate.
  - destruct d as [id c | items]; [discriminate |].
    simpl in Hloop. destruct (Dict.get cu items) as [d' |] eqn:Hget.
    + destruct (IH _ _ Hloop) as [path [cu' [m [-> [Hpath Hm]]]]].
      exists (cu :: path), cu', m. simpl. rewrite Hget. auto.
    + injection Hloop as <-. exists [], cu, items. auto.
Qed.

(** X1.  What [parse] returns is what the tokens lead to: the tokens are a
    path of keys from the root of the namespace to the node returned,
    followed by the remaining tokens it returns; and when the node returned
    is a mapping, nothing remains. *)
Theorem parse_sound (w w' : World) (args _args : loc)
    (tokens : list string) (d : value) :
  Store.get args (lists w) = Some tokens ->
  parse args w = (Ret (d, _args), w') ->
  exists path rest,
    tokens = path ++ rest
    /\ lookup_path (VDict (__cmds (session w))) path = Some d
    /\ Store.get _args (lists w') = Some rest
    /\ (is_dict d = true -> rest = []).
Proof.
  intros Hargs Hparse. unfold parse in Hparse. rewrite Hargs in Hparse.
  destruct (parse_loop (VDict (__cmds (session w))) tokens) as [[r |] rest]
    eqn:Hloop; [| discriminate].
  destruct (negb (is_dict r) && negb (is_command r)); [discriminate |].
  injection Hparse as <- <- <-.
  destruct (parse_loop_found _ _ _ _ Hloop) as [path [-> [Hpath Hrest]]].
  exists path, rest. repeat split; try assumption.
  simpl. apply store_get_set_same.
Qed.

Lemma parse_sound_witness :
  Store.get 1 (lists (Sample.with_args ["foo"; "bar"; "baz"] Sample.w_foo))
  = Some ["foo"; "bar"; "baz"]
  /\ fst (parse 1 (Sample.with_args ["foo"; "bar"; "baz"] Sample.w_foo))
     = Ret (VCmd 0 Sample.X, 2)
  /\ exists path rest,
       ["foo"; "bar"; "baz"] = path ++ rest
       /\ lookup_path
            (VDict (__cmds (session
               (Sample.with_args ["foo"; "bar"; "baz"] Sample.w_foo))))
            path = Some (VCmd 0 Sample.X)
       /\ Store.get 2
            (lists (snd (parse 1
               (Sample.with_args ["foo"; "bar"; "baz"] Sample.w_foo))))
          = Some rest
       /\ (is_dict (VCmd 0 Sample.X) = true -> rest = []).
Proof.
  split; [reflexivity | split; [reflexivity |]].
  apply (parse_sound
           (Sample.with_args ["foo"; "bar"; "baz"] Sample.w_foo)
           (snd (parse 1 (Sample.with_args ["foo"; "bar"; "baz"] Sample.w_foo)))
           1 2 ["foo"; "bar"; "baz"] (VCmd 0 Sample.X));
    reflexivity.
Defined.

(** A token that is missing after a path to a mapping ends the walk. *)
Lemma parse_loop_stops path :
  forall d cu rest m,
    lookup_path d path = Some (VDict m) ->
    Dict.get cu m = None ->
    parse_loop d (path ++ cu :: rest) = (None, rest).
Proof.
  induction path as [| k p IH]; intros d cu rest m Hpath Hcu.
  - injection Hpath as ->. simpl. now rewrite Hcu.
  - destruct d as [id c | items]; [discriminate |].
    simpl in Hpath. simpl.
    destruct (Dict.get k items) as [v |]; [| discriminate].
    now apply IH with (m := m).
Qed.

(** X2.  [parse] raises the [KeyError] "Unknown command", built from the
    caller's tokens, exactly where a token is missing: some of the tokens
    lead to a mapping of the namespace and the next one is not among its
    keys. *)
Theorem parse_failure (w : World) (args : loc) (tokens : list string) :
  Store.get args (lists w) = Some tokens ->
  fst (parse args w) = Raise (unknown_command tokens)
  <-> exists path cu rest m,
        tokens = path ++ cu :: rest
        /\ lookup_path (VDict (__cmds (session w))) path = Some (VDict m)
        /\ Dict.get cu m = None.
Proof.
  intros Hargs. unfold parse. rewrite Hargs. split.
  - destruct (parse_loop (VDict (__cmds (session w))) tokens) as [[r |] rest]
      eqn:Hloop.
    + destruct r; discriminate.
    + intros _. destruct (parse_loop_missing _ _ _ Hloop) as [path [cu [m H]]].
      exists path, cu, rest, m. exact H.
  - intros [path [cu [rest [m [-> [Hpath Hcu]]]]]].
    now rewrite (parse_loop_stops _ _ _ _ _ Hpath Hcu).
Qed.

Lemma parse_failure_witness :
  Store.get 1 (lists (Sample.with_args ["foo"; "nope"; "baz"] Sample.w_foo))
  = Some ["foo"; "nope"; "baz"]
  /\ fst (parse 1 (Sample.with_args ["foo"; "nope"; "baz"] Sample.w_foo))
     = Raise (unknown_command ["foo"; "nope"; "baz"])
  /\ exists path cu rest m,
       ["foo"; "nope"; "baz"] = path ++ cu :: rest
       /\ lookup_path
            (VDict (__cmds (session
               (Sample.with_args ["foo"; "nope"; "baz"] Sample.w_foo))))
            path = Some (VDict m)
       /\ Dict.get cu m = None.
Proof.
  split; [reflexivity | split; [reflexivity |]].
  apply (parse_failure
           (Sample.with_args ["foo"; "nope"; "baz"] Sample.w_foo)
           1 ["foo"; "nope"; "baz"]); reflexivity.
Defined.

(** ** What [handle] does with a line *)

Lemma lstrip_blank s : is_blank s = true -> lstrip s = EmptyString.
Proof.
  unfold is_blank. induction s as [| c rest IH]; simpl; [reflexivity |].
  rewrite andb_true_iff. intros [Hc Hrest]. rewrite Hc. now apply IH.
Qed.

Lemma reverse_blank s : is_blank s = true -> is_blank (reverse s) = true.
Proof.
  unfold is_blank, reverse. rewrite list_ascii_of_string_of_list_ascii.
  rewrite !forallb_forall. intros H c Hin. apply H. now apply in_rev.
Qed.

Lemma strip_blank s : is_blank s = true -> strip s = EmptyString.
Proof.
  intros H. unfold strip, rstrip.
  rewrite (lstrip_blank _ (reverse_blank _ H)). reflexivity.
Qed.

Section HandleFacts.
Context {sem : CommandSemantics} {console : Console}.

(** X3.  A line of whitespace only, the empty line included, is ignored:
    [handle] returns at once and the world is untouched (nothing looked up,
    invoked or printed). *)
Theorem handle_blank (w : World) (cmdline : string) :
  is_blank cmdline = true -> handle cmdline w = (Ret tt, w).
Proof.
  intros H. unfold handle. now rewrite (strip_blank _ H).
Qed.

(** X4.  A line that resolves to a Command available in the session invokes
    it once, on a list object holding exactly the tokens left after the
    path, in a world where only that list and the record of the call are
    new; when the invocation returns, [handle] returns with the world it
    left. *)
Theorem handle_invokes (w : World) (cmdline : string) (id : loc)
    (c : Command) (rest : list string) :
  parse_loop (VDict (__cmds (session w))) (split (strip cmdline))
  = (Some (VCmd id c), rest) ->
  available c (session w) = true ->
  exists args w1,
    Store.get args (lists w1) = Some rest
    /\ session w1 = session w
    /\ next_id w1 = next_id w
    /\ output w1 = output w
    /\ calls w1 = calls w ++ [(c, rest)]
    /\ (forall l x, Store.get l (lists w) = Some x ->
                    Store.get l (lists w1) = Some x)
    /\ forall w2, invoke c args w1 = (None, w2) ->
                  handle cmdline w = (Ret tt, w2).
Proof.
  intros Hloop Havail.
  pose proof (strip_blank_no_command _ _ _ _ _ Hloop) as Hblank.
  pose proof (getitem_command w cmdline _ _ _ Hloop) as Hget.
  rewrite Havail in Hget. cbn [negb] in Hget.
  set (tokens := split (strip cmdline)) in *.
  set (a0 := Store.fresh (lists w)) in *.
  set (h0 := Store.set a0 tokens (lists w)) in *.
  set (a1 := Store.fresh h0) in *.
  set (h1 := Store.set a1 rest h0) in *.
  exists a1, (set_calls (calls w ++ [(c, rest)]) (set_lists h1 w)).
  assert (Store.get a1 h1 = Some rest) as Hrest
      by apply store_get_set_same.
  repeat split; try reflexivity.
  - exact Hrest.
  - intros l x Hl. cbn [lists set_calls set_lists].
    unfold h1. rewrite store_get_set_other.
    + unfold h0. rewrite store_get_set_other; [assumption |].
      now apply store_live_not_fresh with (x := x).
    + apply store_live_not_fresh with (x := x).
      unfold h0. rewrite store_get_set_other; [assumption |].
      now apply store_live_not_fresh with (x := x).
  - intros w2 Hinvoke. unfold handle. rewrite Hblank.
    unfold lookup_and_call, bind. rewrite Hget. cbn [fst snd].
    unfold call. cbn [lists set_lists]. rewrite Hrest.
    cbn [calls set_lists]. rewrite Hinvoke. reflexivity.
Qed.

(** The lookup of a line whose tokens end on an interior mapping. *)
Lemma getitem_interior (w : World) (cmdline : string) (m : dict) :
  lookup_path (VDict (__cmds (session w))) (split (strip cmdline))
  = Some (VDict m) ->
  exists w1,
    getitem cmdline w = (Raise (several_subcommands cmdline), w1)
    /\ session w1 = session w
    /\ output w1 = output w
    /\ calls w1 = calls w
    /\ next_id w1 = next_id w.
Proof.
  intros Hpath. apply parse_loop_interior in Hpath.
  unfold getitem, bind, new_list.
  erewrite parse_found
    with (tokens := split (strip cmdline)) (d := VDict m) (rest := []).
  - cbn [fst]. unfold raise. eexists. split; [reflexivity |]. repeat split.
  - simpl. apply store_get_set_same.
  - exact Hpath.
Qed.

(** The lookup of a line with a token that is missing. *)
Lemma getitem_unknown (w : World) (cmdline : string) (rest : list string) :
  parse_loop (VDict (__cmds (session w))) (split (strip cmdline))
  = (None, rest) ->
  exists w1,
    getitem cmdline w
    = (Raise (unknown_command (split (strip cmdline))), w1)
    /\ session w1 = session w
    /\ output w1 = output w
    /\ calls w1 = calls w
    /\ next_id w1 = next_id w.
Proof.
  intros Hloop. unfold getitem, bind, new_list.
  erewrite parse_missing with (tokens := split (strip cmdline)) (rest := rest).
  - eexists. split; [reflexivity |]. repeat split.
  - simpl. apply store_get_set_same.
  - exact Hloop.
Qed.

(** X5.  A line whose tokens end on an interior mapping of the namespace
    invokes no Command and leaves the session as it is; the [TypeError]
    "has several sub-commands" is caught and its error line is handed to the
    console: printed, it is the one line added to the output and [handle]
    returns normally; refused by the console, nothing is printed and the
    exception of the console leaves [handle]. *)
Theorem handle_interior (w : World) (cmdline : string) (m : dict) :
  is_empty (strip cmdline) = false ->
  lookup_path (VDict (__cmds (session w))) (split (strip cmdline))
  = Some (VDict m) ->
  exists w1,
    session w1 = session w
    /\ output w1 = output w
    /\ calls w1 = calls w
    /\ next_id w1 = next_id w
    /\ handle cmdline w
       = match markup_error
                 (io.fe ("Error while executing command: "
                           ++ dquote ++ cmdline ++ dquote
                           ++ " has several sub-commands!")) with
         | None =>
             (Ret tt,
              set_output
                (output w
                   ++ [io.fe ("Error while executing command: "
                                ++ dquote ++ cmdline ++ dquote
                                ++ " has several sub-commands!")]) w1)
         | Some e => (Raise e, w1)
         end.
Proof.
  intros Hblank Hpath.
  destruct (getitem_interior _ _ _ Hpath) as (w1 & Hget & Hs & Ho & Hc & Hn).
  exists w1. repeat split; try assumption.
  rewrite (handle_lookup_raised _ _ _ _ Hblank Hget).
  cbn [is_KeyError several_subcommands str_exn]. unfold io_e.
  rewrite Ho. reflexivity.
Qed.

(** X6.  A line with a token that is missing from the namespace invokes no
    Command and leaves the session as it is; the [KeyError] is caught and
    the error line "Command not found" followed by the line as typed is
    handed to the console: printed, it is the one line added to the output
    and [handle] returns normally; refused by the console, nothing is
    printed and the exception of the console leaves [handle]. *)
Theorem handle_unknown (w : World) (cmdline : string) (rest : list string) :
  parse_loop (VDict (__cmds (session w))) (split (strip cmdline))
  = (None, rest) ->
  exists w1,
    session w1 = session w
    /\ output w1 = output w
    /\ calls w1 = calls w
    /\ next_id w1 = next_id w
    /\ handle cmdline w
       = match markup_error (io.fe ("Command not found: " ++ cmdline)) with
         | None =>
             (Ret tt,
              set_output
                (output w ++ [io.fe ("Command not found: " ++ cmdline)]) w1)
         | Some e => (Raise e, w1)
         end.
Proof.
  intros Hloop.
  assert (is_empty (strip cmdline) = false) as Hblank.
  { destruct (strip cmdline) eqn:E; [| reflexivity]. discriminate. }
  destruct (getitem_unknown _ _ _ Hloop) as (w1 & Hget & Hs & Ho & Hc & Hn).
  exists w1. repeat split; try assumption.
  rewrite (handle_lookup_raised _ _ _ _ Hblank Hget).
  cbn [is_KeyError unknown_command]. unfold io_e.
  rewrite Ho. reflexivity.
Qed.
End HandleFacts.

Lemma handle_blank_witness :
  is_blank "  " = true
  /\ @handle Sample.sem Sample.console "  " Sample.w_core
     = (Ret tt, Sample.w_core).
Proof.
  split; [reflexivity |].
  apply (@handle_blank Sample.sem Sample.console Sample.w_core "  ").
  reflexivity.
Defined.

Lemma handle_invokes_witness :
  parse_loop (VDict (__cmds (session Sample.w_core)))
    (split (strip "g extra")) = (Some (VCmd 0 Sample.go), ["extra"])
  /\ @available Sample.sem Sample.go (session Sample.w_core) = true
  /\ exists args w1,
       Store.get args (lists w1) = Some ["extra"]
       /\ calls w1 = calls Sample.w_core ++ [(Sample.go, ["extra"])]
       /\ @handle Sample.sem Sample.console "g extra" Sample.w_core
          = (Ret tt, w1).
Proof.
  split; [reflexivity | split; [reflexivity |]].
  destruct (@handle_invokes Sample.sem Sample.console Sample.w_core
              "g extra" 0 Sample.go ["extra"] eq_refl eq_refl)
    as [args [w1 [Hargs [_ [_ [_ [Hcalls [_ Hret]]]]]]]].
  exists args, w1. split; [exact Hargs | split; [exact Hcalls |]].
  apply Hret. reflexivity.
Defined.

Lemma handle_interior_witness :
  is_empty (strip " plug ") = false
  /\ lookup_path (VDict (__cmds (session Sample.w_plugin)))
       (split (strip " plug ")) = Some (VDict [("run", VCmd 8 Sample.Y)])
  /\ exists w1,
       session w1 = session Sample.w_plugin
       /\ output w1 = output Sample.w_plugin
       /\ calls w1 = calls Sample.w_plugin
       /\ next_id w1 = next_id Sample.w_plugin
       /\ @handle Sample.sem Sample.console " plug " Sample.w_plugin
          = (Ret tt,
             set_output
               (output Sample.w_plugin
                  ++ [io.fe ("Error while executing command: "
                               ++ dquote ++ " plug " ++ dquote
                               ++ " has several sub-commands!")]) w1).
Proof.
  split; [reflexivity | split; [reflexivity |]].
  apply (@handle_interior Sample.sem Sample.console Sample.w_plugin " plug "
           [("run", VCmd 8 Sample.Y)]); reflexivity.
Defined.

Lemma handle_unknown_witness :
  parse_loop (VDict (__cmds (session Sample.w_plugin)))
    (split (strip "plug [/x] now")) = (None, ["now"])
  /\ exists w1,
       session w1 = session Sample.w_plugin
       /\ output w1 = output Sample.w_plugin
       /\ calls w1 = calls Sample.w_plugin
       /\ next_id w1 = next_id Sample.w_plugin
       /\ @handle Sample.sem Sample.console "plug [/x] now" Sample.w_plugin
          = (Raise (OtherError "closing tag '[/x]' doesn't match any open tag"),
             w1).
Proof.
  split; [reflexivity |].
  apply (@handle_unknown Sample.sem Sample.console Sample.w_plugin
           "plug [/x] now" ["now"]).
  reflexivity.
Defined.

(** ** The input loop *)

Section LoopFacts.
Context {sem : CommandSemantics} {console : Console}.

(** X7.  Interrupts at the prompt and lines of whitespace only leave no
    trace: the loop runs as if they had not been entered. *)
Theorem handle_forever_skips (inputs : list prompt_result) (w : World) :
  handle_forever inputs w
  = handle_forever (filter (fun i => negb (skipped i)) inputs) w.
Proof.
  revert w. induction inputs as [| i rest IH]; intros w; [reflexivity |].
  destruct i as [s | |]; cbn [filter skipped negb].
  - destruct (is_blank s) eqn:Hs; cbn [negb].
    + cbn [handle_forever]. unfold handle.
      rewrite (strip_blank _ Hs). cbn [is_empty]. apply IH.
    + cbn [handle_forever].
      destruct (handle s w) as [[u | e] w']; [apply IH |].
      destruct (is_KeyboardInterrupt e); [apply IH | reflexivity].
  - apply IH.
  - reflexivity.
Qed.

(** X8.  The end of input ends the loop: what the prompt would deliver
    after it is never read. *)
Theorem handle_forever_stops (pre post : list prompt_result) (w : World) :
  handle_forever (pre ++ EndOfInput :: post) w
  = handle_forever (pre ++ [EndOfInput]) w.
Proof.
  revert w. induction pre as [| i rest IH]; intros w; [reflexivity |].
  destruct i as [s | |]; cbn [app handle_forever].
  - destruct (handle s w) as [[u | e] w']; [apply IH |].
    destruct (is_KeyboardInterrupt e); [apply IH | reflexivity].
  - apply IH.
  - reflexivity.
Qed.

(** X9.  An exception leaves the loop in two ways only, whatever the lines
    entered and whatever the Commands do: as a termination request, or
    raised by the console while [handle] prints an error line. *)
Theorem handle_forever_raises_exit (inputs : list prompt_result)
    (w w' : World) (e : exn) :
  handle_forever inputs w = (Raise e, w') ->
  is_SystemExit e = true \/ exists msg, markup_error (io.fe msg) = Some e.
Proof.
  revert w. induction inputs as [| i rest IH]; intros w; [discriminate |].
  destruct i as [s | |]; cbn [handle_forever].
  - destruct (handle s w) as [[u | e0] w1] eqn:Hh; [apply IH |].
    apply handle_raises in Hh.
    destruct (is_KeyboardInterrupt e0); [apply IH |].
    intros [= <- <-]. exact Hh.
  - apply IH.
  - discriminate.
Qed.
End LoopFacts.

Lemma handle_forever_raises_exit_witness :
  @handle_forever Sample.sem Sample.console
    [Line "go"; Interrupted; Line "boom"; Line "q"; Line "go"] Sample.w_core
  = (Raise (SystemExit 0),
     snd (@handle_forever Sample.sem Sample.console
            [Line "go"; Interrupted; Line "boom"; Line "q"; Line "go"]
            Sample.w_core))
  /\ (is_SystemExit (SystemExit 0) = true
      \/ exists msg,
           @markup_error Sample.console (io.fe msg) = Some (SystemExit 0)).
Proof.
  split; [reflexivity |].
  apply (@handle_forever_raises_exit Sample.sem Sample.console
           [Line "go"; Interrupted; Line "boom"; Line "q"; Line "go"]
           Sample.w_core
           (snd (@handle_forever Sample.sem Sample.console
                   [Line "go"; Interrupted; Line "boom"; Line "q"; Line "go"]
                   Sample.w_core))
           (SystemExit 0)).
  reflexivity.
Defined.

(** ** Rebuilding does not depend on addresses *)

Lemma erase_items_setdefault k da :
  erase_items (Dict.setdefault k (VDict []) da)
  = Dict.setdefault k (VDict []) (erase_items da).
Proof.
  unfold Dict.setdefault. rewrite erase_items_get.
  destruct (Dict.get k da); [reflexivity |].
  now rewrite erase_items_set.
Qed.

Lemma erase_cons k v rest :
  erase (VDict ((k, v) :: rest)) = VDict ((k, erase v) :: erase_items rest).
Proof. reflexivity. Qed.

(** Merging trees without their addresses gives the merge without its
    addresses, and the same exception if any. *)
Lemma deep_merge_erase b :
  forall a,
    deep_merge (erase a) (erase b)
    = (erase (fst (deep_merge a b)), snd (deep_merge a b)).
Proof.
  induction b as [id c | items IH] using value_tree_ind; intros a.
  - reflexivity.
  - revert a. induction items as [| [k v] rest IHrest]; intros a.
    + reflexivity.
    + inversion IH as [| ? ? Hv Hrest]; subst. cbn [snd] in Hv.
      specialize (IHrest Hrest).
      destruct a as [ida ca | da].
      * destruct v; reflexivity.
      * rewrite erase_cons, erase_dict.
        destruct v as [id c | bv].
        -- cbn [erase]. rewrite !deep_merge_cons_cmd.
           change (VCmd 0 c) with (erase (VCmd id c)).
           rewrite <- erase_items_set, <- !erase_dict. apply IHrest.
        -- rewrite erase_dict, !deep_merge_cons_dict.
           rewrite <- erase_items_setdefault, erase_items_get.
           set (da1 := Dict.setdefault k (VDict []) da).
           assert (match option_map erase (Dict.get k da1) with
                   | Some s => s
                   | None => VDict []
                   end
                   = erase (match Dict.get k da1 with
                            | Some s => s
                            | None => VDict []
                            end)) as ->
               by (destruct (Dict.get k da1); reflexivity).
           rewrite <- erase_dict, Hv.
           destruct (deep_merge
                       match Dict.get k da1 with
                       | Some s => s
                       | None => VDict []
                       end (VDict bv)) as [sub' [x |]]; cbn [fst snd].
           ++ now rewrite <- erase_items_set, <- erase_dict.
           ++ rewrite <- erase_items_set, <- !erase_dict. apply IHrest.
Qed.

Lemma merge_all_erase (vs : list dict) :
  forall acc acc' n n',
    erase acc = erase acc' ->
    erase (fst (fst (merge_all vs acc n)))
    = erase (fst (fst (merge_all vs acc' n')))
    /\ snd (fst (merge_all vs acc n)) = snd (fst (merge_all vs acc' n')).
Proof.
  induction vs as [| v rest IH]; intros acc acc' n n' Hacc.
  - simpl. auto.
  - rewrite !merge_all_cons.
    pose proof (deep_merge_erase (VDict (fst (build_aliases v n))) acc) as H1.
    pose proof (deep_merge_erase (VDict (fst (build_aliases v n'))) acc') as H2.
    rewrite !erase_dict, !build_aliases_erase in H1, H2.
    rewrite Hacc, H2 in H1. clear H2.
    destruct (deep_merge acc (VDict (fst (build_aliases v n))))
      as [a1 e1], (deep_merge acc' (VDict (fst (build_aliases v n'))))
      as [a2 e2]. cbn [fst snd] in H1. injection H1 as Hfst Hsnd. subst e2.
    destruct e1 as [x |].
    + cbn [fst snd]. auto.
    + apply IH. now symmetry.
Qed.

Lemma build_completer_cons compl k v rest :
  build_completer compl (VDict ((k, v) :: rest))
  = build_completer (Dict.set k (project v) compl) (VDict rest).
Proof. destruct v; reflexivity. Qed.

Lemma build_completer_erase v :
  forall compl, build_completer compl (erase v) = build_completer compl v.
Proof.
  induction v as [id c | items IH] using value_tree_ind; intros compl.
  - reflexivity.
  - revert compl. induction items as [| [k v] rest IHrest]; intros compl.
    + reflexivity.
    + inversion IH as [| ? ? Hv Hrest]; subst. cbn [snd] in Hv.
      rewrite erase_cons, !build_completer_cons, <- erase_dict.
      rewrite (IHrest Hrest). f_equal. f_equal.
      destruct v as [id c | bv]; [reflexivity |].
      cbn [project erase]. f_equal. apply (Hv []).
Qed.

(** Everything [refresh] does, in terms of the merge loop. *)
Lemma refresh_fields (w : World) :
  cmds (session (snd (refresh w))) = cmds (session w)
  /\ lists (snd (refresh w)) = lists w
  /\ output (snd (refresh w)) = output w
  /\ calls (snd (refresh w)) = calls w
  /\ VDict (__cmds (session (snd (refresh w))))
     = fst (fst (merge_all (Dict.values (cmds (session w))) (VDict [])
                   (next_id w)))
  /\ next_id (snd (refresh w))
     = snd (merge_all (Dict.values (cmds (session w))) (VDict []) (next_id w))
  /\ match snd (fst (merge_all (Dict.values (cmds (session w))) (VDict [])
                       (next_id w))) with
     | None =>
         fst (refresh w) = Ret tt
         /\ compl_dict (session (snd (refresh w)))
            = build_completer [] (VDict (__cmds (session (snd (refresh w)))))
         /\ completer (session (snd (refresh w)))
            = compl_dict (session (snd (refresh w)))
     | Some x =>
         fst (refresh w) = Raise x
         /\ compl_dict (session (snd (refresh w))) = compl_dict (session w)
         /\ completer (session (snd (refresh w))) = completer (session w)
     end.
Proof.
  unfold refresh.
  destruct (merge_all_is_dict (Dict.values (cmds (session w))) [] (next_id w))
    as [da Hda].
  destruct (merge_all (Dict.values (cmds (session w))) (VDict []) (next_id w))
    as [[acc e] n']. cbn [fst snd] in *. subst acc.
  destruct e as [x |]; cbn; repeat split.
Qed.

(** X10.  Rebuilding twice rebuilds the same namespace: after a successful
    [refresh], another [refresh] succeeds and gives a merged namespace with
    the same keys and Commands in the same order (the Command objects are
    copied anew) and the same completion projection. *)
Theorem refresh_again (w w1 : World) :
  refresh w = (Ret tt, w1) ->
  exists w2,
    refresh w1 = (Ret tt, w2)
    /\ cmds (session w2) = cmds (session w)
    /\ erase (VDict (__cmds (session w2))) = erase (VDict (__cmds (session w1)))
    /\ compl_dict (session w2) = compl_dict (session w1)
    /\ completer (session w2) = completer (session w1).
Proof.
  intros Hr.
  destruct (refresh_fields w) as [Hc [_ [_ [_ [Hns [_ Hout]]]]]].
  destruct (refresh_fields w1) as [Hc1 [_ [_ [_ [Hns1 [_ Hout1]]]]]].
  rewrite Hr in *. cbn [fst snd] in *. rewrite Hc in *.
  destruct (merge_all_erase (Dict.values (cmds (session w))) (VDict [])
              (VDict []) (next_id w) (next_id w1) eq_refl) as [He Hs].
  rewrite <- Hns, <- Hns1 in He. rewrite <- Hs in Hout1.
  destruct (snd (fst (merge_all (Dict.values (cmds (session w))) (VDict [])
                        (next_id w)))) as [x |].
  - destruct Hout as [Hout _]. discriminate.
  - destruct Hout as [_ [Hcd Hcp]]. destruct Hout1 as [Hret [Hcd1 Hcp1]].
    exists (snd (refresh w1)). repeat split.
    + destruct (refresh w1) as [o w2]. cbn [fst snd] in *. now subst o.
    + exact Hc1.
    + now symmetry.
    + rewrite Hcd1, Hcd, <- build_completer_erase, <- He.
      apply build_completer_erase.
    + rewrite Hcp1, Hcp, Hcd1, Hcd, <- build_completer_erase, <- He.
      apply build_completer_erase.
Qed.

Lemma refresh_again_witness :
  refresh Sample.w_plugin = (Ret tt, Sample.after refresh Sample.w_plugin)
  /\ exists w2,
       refresh (Sample.after refresh Sample.w_plugin) = (Ret tt, w2)
       /\ cmds (session w2) = cmds (session Sample.w_plugin)
       /\ erase (VDict (__cmds (session w2)))
          = erase (VDict (__cmds (session (Sample.after refresh Sample.w_plugin))))
       /\ compl_dict (session w2)
          = compl_dict (session (Sample.after refresh Sample.w_plugin))
       /\ completer (session w2)
          = completer (session (Sample.after refresh Sample.w_plugin)).
Proof.
  split; [reflexivity |].
  apply (refresh_again Sample.w_plugin (Sample.after refresh Sample.w_plugin)).
  reflexivity.
Defined.

(** ** Registering and removing collections *)

Lemma pop_set_absent {A : Type} (k : string) (v : A) (d : list (string * A)) :
  Dict.get k d = None -> Dict.pop k (Dict.set k v d) = d.
Proof.
  induction d as [| [k' v'] rest IH]; simpl.
  - now rewrite String.eqb_refl.
  - destruct (String.eqb k k') eqn:E; [discriminate |].
    intros H. simpl. rewrite E. now rewrite IH.
Qed.

Lemma keys_set {A : Type} (k : string) (v : A) (d : list (string * A)) :
  Dict.keys (Dict.set k v d)
  = if Dict.mem k d then Dict.keys d else Dict.keys d ++ [k].
Proof.
  unfold Dict.mem. induction d as [| [k' v'] rest IH]; simpl; [reflexivity |].
  destruct (String.eqb k k') eqn:E; simpl; [reflexivity |].
  rewrite IH. now destruct (Dict.get k rest).
Qed.

Lemma extend_cmds (w : World) (coll_name : string) (c : dict) :
  cmds (session (snd (extend coll_name c w)))
  = Dict.set coll_name c (cmds (session w)).
Proof.
  unfold extend.
  destruct (refresh_fields
              (set_session
                 (set_cmds (Dict.set coll_name c (cmds (session w)))
                    (session w)) w)) as [Hc _].
  now rewrite Hc.
Qed.

(** X11.  [extend] registers the collection whether or not the rebuild
    succeeds: afterwards the key leads to the collection given, every other
    key to what it led to, and the registration order is as before, with
    the key added last when it was not registered (a registered key keeps
    its place). *)
Theorem extend_registers (w : World) (coll_name : string) (c : dict) :
  Dict.get coll_name (cmds (session (snd (extend coll_name c w)))) = Some c
  /\ (forall k, k <> coll_name ->
                Dict.get k (cmds (session (snd (extend coll_name c w))))
                = Dict.get k (cmds (session w)))
  /\ Dict.keys (cmds (session (snd (extend coll_name c w))))
     = (if Dict.mem coll_name (cmds (session w))
        then Dict.keys (cmds (session w))
        else Dict.keys (cmds (session w)) ++ [coll_name]).
Proof.
  rewrite extend_cmds. split; [| split].
  - apply get_set_same.
  - intros k Hk. now apply get_set_other.
  - apply keys_set.
Qed.

(** X12.  Registering a collection under a key that was not registered and
    removing it again brings the session back: [remove] succeeds, whether the
    [extend] had succeeded or raised, the registered collections are the
    ones before, and the merged namespace and the completion projection are
    those of a rebuild before the [extend] (the Command objects being new
    copies). *)
Theorem extend_remove_round_trip (w w0 : World) (coll_name : string)
    (c : dict) :
  Dict.get coll_name (cmds (session w)) = None ->
  refresh w = (Ret tt, w0) ->
  exists w2,
    remove coll_name (snd (extend coll_name c w)) = (Ret tt, w2)
    /\ cmds (session w2) = cmds (session w)
    /\ erase (VDict (__cmds (session w2))) = erase (VDict (__cmds (session w0)))
    /\ compl_dict (session w2) = compl_dict (session w0)
    /\ completer (session w2) = completer (session w0).
Proof.
  intros Hnew Hr.
  pose proof (extend_cmds w coll_name c) as Hcmds.
  unfold remove. rewrite Hcmds, get_set_same, (pop_set_absent _ _ _ Hnew).
  set (w1 := set_session
               (set_cmds (cmds (session w))
                  (session (snd (extend coll_name c w))))
               (snd (extend coll_name c w))).
  destruct (refresh_fields w) as [_ [_ [_ [_ [Hns [_ Hout]]]]]].
  destruct (refresh_fields w1) as [Hc1 [_ [_ [_ [Hns1 [_ Hout1]]]]]].
  rewrite Hr in *. cbn [fst snd] in *.
  assert (cmds (session w1) = cmds (session w)) as Hw1 by reflexivity.
  rewrite Hw1 in *.
  destruct (merge_all_erase (Dict.values (cmds (session w))) (VDict [])
              (VDict []) (next_id w) (next_id w1) eq_refl) as [He Hs].
  rewrite <- Hns, <- Hns1 in He. rewrite <- Hs in Hout1.
  destruct (snd (fst (merge_all (Dict.values (cmds (session w))) (VDict [])
                        (next_id w)))) as [x |].
  - destruct Hout as [Hout _]. discriminate.
  - destruct Hout as [_ [Hcd Hcp]]. destruct Hout1 as [Hret [Hcd1 Hcp1]].
    exists (snd (refresh w1)). repeat split.
    + destruct (refresh w1) as [o w2]. cbn [fst snd] in *. now subst o.
    + exact Hc1.
    + now symmetry.
    + rewrite Hcd1, Hcd, <- build_completer_erase, <- He.
      apply build_completer_erase.
    + rewrite Hcp1, Hcp, Hcd1, Hcd, <- build_completer_erase, <- He.
      apply build_completer_erase.
Qed.

Lemma extend_remove_round_trip_witness :
  Dict.get "plug" (cmds (session Sample.w_core)) = None
  /\ refresh Sample.w_core = (Ret tt, Sample.after refresh Sample.w_core)
  /\ fst (extend "plug" Sample.x_tree_q Sample.w_core) = Ret tt
  /\ exists w2,
       remove "plug" (snd (extend "plug" Sample.x_tree_q Sample.w_core))
       = (Ret tt, w2)
       /\ cmds (session w2) = cmds (session Sample.w_core)
       /\ erase (VDict (__cmds (session w2)))
          = erase (VDict (__cmds (session (Sample.after refresh Sample.w_core))))
       /\ compl_dict (session w2)
          = compl_dict (session (Sample.after refresh Sample.w_core))
       /\ completer (session w2)
          = completer (session (Sample.after refresh Sample.w_core)).
Proof.
  split; [reflexivity | split; [reflexivity | split; [reflexivity |]]].
  apply (extend_remove_round_trip Sample.w_core
           (Sample.after refresh Sample.w_core) "plug" Sample.x_tree_q);
    reflexivity.
Defined.

(** X13.  An [extend] whose rebuild raises is not undone: the collection
    stays registered, the completion projection and the completer keep what
    they had before, and rebuilding again raises the same exception. *)
Theorem extend_failure_stays (w w1 : World) (coll_name : string) (c : dict)
    (e : exn) :
  extend coll_name c w = (Raise e, w1) ->
  Dict.get coll_name (cmds (session w1)) = Some c
  /\ compl_dict (session w1) = compl_dict (session w)
  /\ completer (session w1) = completer (session w)
  /\ fst (refresh w1) = Raise e.
Proof.
  intros Hext.
  pose proof (extend_cmds w coll_name c) as Hreg.
  rewrite Hext in Hreg. cbn [snd] in Hreg.
  split; [rewrite Hreg; apply get_set_same |].
  unfold extend in Hext.
  set (wx := set_session
               (set_cmds (Dict.set coll_name c (cmds (session w)))
                  (session w)) w) in *.
  destruct (refresh_fields wx) as [Hc [_ [_ [_ [_ [_ Hout]]]]]].
  destruct (refresh_fields w1) as [_ [_ [_ [_ [_ [_ Hout1]]]]]].
  rewrite Hext in *. cbn [fst snd] in *. rewrite Hc in Hout1.
  destruct (merge_all_erase (Dict.values (cmds (session wx))) (VDict [])
              (VDict []) (next_id wx) (next_id w1) eq_refl) as [_ Hs].
  rewrite <- Hs in Hout1.
  destruct (snd (fst (merge_all (Dict.values (cmds (session wx))) (VDict [])
                        (next_id wx)))) as [x |].
  - destruct Hout as [Hx [Hcd Hcp]]. injection Hx as ->.
    destruct Hout1 as [Hraise _]. auto.
  - destruct Hout as [Hx _]. discriminate.
Qed.

Lemma extend_failure_stays_witness :
  extend "plug" Sample.x_tree_q (Sample.after (init Sample.x_cmd) Sample.blank)
  = (Raise (TypeError "'Command' object does not support item assignment"),
     Sample.after (extend "plug" Sample.x_tree_q)
       (Sample.after (init Sample.x_cmd) Sample.blank))
  /\ Dict.get "plug"
       (cmds (session
          (Sample.after (extend "plug" Sample.x_tree_q)
             (Sample.after (init Sample.x_cmd) Sample.blank))))
     = Some Sample.x_tree_q
  /\ fst (refresh
            (Sample.after (extend "plug" Sample.x_tree_q)
               (Sample.after (init Sample.x_cmd) Sample.blank)))
     = Raise (TypeError "'Command' object does not support item assignment").
Proof.
  split; [reflexivity |].
  destruct (extend_failure_stays
              (Sample.after (init Sample.x_cmd) Sample.blank)
              (Sample.after (extend "plug" Sample.x_tree_q)
                 (Sample.after (init Sample.x_cmd) Sample.blank))
              "plug" Sample.x_tree_q
              (TypeError "'Command' object does not support item assignment")
              eq_refl) as [Hreg [_ [_ Hagain]]].
  split; [exact Hreg | exact Hagain].
Defined.

(** ** The merged namespace and its completion projection *)

Lemma unique_keys_set d k v :
  unique_keys v = true ->
  unique_keys (VDict d) = true ->
  unique_keys (VDict (Dict.set k v d)) = true.
Proof.
  rewrite !unique_keys_dict. intros Hv [Hnd Hall]. split.
  - now apply keys_set_nodup.
  - apply forall_set; [intros k'; exact Hv | assumption].
Qed.

Lemma unique_keys_setdefault d k :
  unique_keys (VDict d) = true ->
  unique_keys (VDict (Dict.setdefault k (VDict []) d)) = true.
Proof.
  intros Hu. unfold Dict.setdefault. destruct (Dict.get k d); [exact Hu |].
  now apply unique_keys_set.
Qed.

(** Merging keeps the keys of every dictionary distinct. *)
Lemma deep_merge_unique b :
  forall a, unique_keys a = true -> unique_keys (fst (deep_merge a b)) = true.
Proof.
  induction b as [id c | items IH] using value_tree_ind; intros a Ha.
  - exact Ha.
  - revert a Ha. induction items as [| [k v] rest IHrest]; intros a Ha.
    + exact Ha.
    + inversion IH as [| ? ? Hv Hrest]; subst. cbn [snd] in Hv.
      specialize (IHrest Hrest).
      destruct a as [ida ca | da]; [destruct v; exact Ha |].
      destruct v as [id c | bv].
      * rewrite deep_merge_cons_cmd. apply IHrest.
        now apply unique_keys_set.
      * rewrite deep_merge_cons_dict.
        set (da1 := Dict.setdefault k (VDict []) da).
        assert (unique_keys (VDict da1) = true) as Hda1
            by now apply unique_keys_setdefault.
        assert (unique_keys match Dict.get k da1 with
                            | Some s => s
                            | None => VDict []
                            end = true) as Hsub.
        { destruct (Dict.get k da1) eqn:E; [| reflexivity].
          exact (unique_keys_get _ _ _ Hda1 E). }
        specialize (Hv _ Hsub).
        destruct (deep_merge
                    match Dict.get k da1 with
                    | Some s => s
                    | None => VDict []
                    end (VDict bv)) as [sub' [x |]]; cbn [fst] in *.
        -- now apply unique_keys_set.
        -- apply IHrest. now apply unique_keys_set.
Qed.

Lemma merge_all_unique (vs : list dict) :
  forall acc n,
    unique_keys acc = true ->
    unique_keys (fst (fst (merge_all vs acc n))) = true.
Proof.
  induction vs as [| v rest IH]; intros acc n Hacc; [exact Hacc |].
  rewrite merge_all_cons.
  pose proof (deep_merge_unique (VDict (fst (build_aliases v n))) _ Hacc) as H.
  destruct (deep_merge acc (VDict (fst (build_aliases v n)))) as [acc' [e |]];
    cbn [fst] in *; [exact H | now apply IH].
Qed.

Lemma get_build_completer (items : dict) :
  forall compl k,
    NoDup (Dict.keys items) ->
    Dict.get k (build_completer compl (VDict items))
    = match Dict.get k items with
      | Some v => Some (project v)
      | None => Dict.get k compl
      end.
Proof.
  induction items as [| [k0 v0] rest IH]; intros compl k Hnd; [reflexivity |].
  simpl in Hnd. inversion Hnd as [| ? ? Hnotin Hrest]; subst.
  rewrite build_completer_cons, (IH _ _ Hrest). simpl.
  destruct (String.eqb k k0) eqn:E.
  - apply String.eqb_eq in E. subst k0.
    assert (Dict.get k rest = None) as -> by now apply get_none_keys.
    apply get_set_same.
  - apply String.eqb_neq in E.
    destruct (Dict.get k rest); [reflexivity |]. now apply get_set_other.
Qed.

Lemma project_lookup (path : list string) :
  forall v,
    unique_keys v = true ->
    nested_lookup (project v) path = option_map project (lookup_path v path).
Proof.
  induction path as [| k q IH]; intros v Hu; [reflexivity |].
  destruct v as [id c | items]; [reflexivity |].
  pose proof Hu as Hnd. apply unique_keys_dict in Hnd. destruct Hnd as [Hnd _].
  cbn [project nested_lookup lookup_path].
  rewrite (get_build_completer items [] k Hnd).
  destruct (Dict.get k items) as [v |] eqn:E; [| reflexivity].
  apply IH. exact (unique_keys_get _ _ _ Hu E).
Qed.

(** X14.  After a successful [refresh] the completer has been given the
    completion projection, and the projection mirrors the merged namespace:
    a path of keys leads to a terminal marker exactly where it leads to a
    Command of the namespace, to a mapping (the projection of that mapping)
    exactly where it leads to a mapping, and nowhere otherwise. *)
Theorem completion_mirrors_namespace (w w' : World) :
  refresh w = (Ret tt, w') ->
  completer (session w') = compl_dict (session w')
  /\ forall path,
      nested_lookup (NDict (compl_dict (session w'))) path
      = option_map project (lookup_path (VDict (__cmds (session w'))) path).
Proof.
  intros Hr.
  destruct (refresh_fields w) as [_ [_ [_ [_ [Hns [_ Hout]]]]]].
  pose proof (merge_all_unique (Dict.values (cmds (session w))) (VDict [])
                (next_id w) eq_refl) as Hu.
  rewrite <- Hns in Hu. rewrite Hr in *. cbn [fst snd] in *.
  destruct (snd (fst (merge_all (Dict.values (cmds (session w))) (VDict [])
                        (next_id w)))) as [x |].
  - destruct Hout as [Hout _]. discriminate.
  - destruct Hout as [_ [Hcd Hcp]]. split; [exact Hcp |].
    intros path. rewrite Hcd.
    exact (project_lookup path (VDict (__cmds (session w'))) Hu).
Qed.

Lemma completion_mirrors_namespace_witness :
  refresh Sample.w_plugin = (Ret tt, Sample.after refresh Sample.w_plugin)
  /\ nested_lookup
       (NDict (compl_dict (session (Sample.after refresh Sample.w_plugin))))
       ["plug"; "run"] = Some NNone
  /\ nested_lookup
       (NDict (compl_dict (session (Sample.after refresh Sample.w_plugin))))
       ["plug"] = Some (NDict [("run", NNone)])
  /\ nested_lookup
       (NDict (compl_dict (session (Sample.after refresh Sample.w_plugin))))
       ["plug"; "walk"] = None.
Proof.
  split; [reflexivity |].
  destruct (completion_mirrors_namespace Sample.w_plugin
              (Sample.after refresh Sample.w_plugin) eq_refl) as [_ Hm].
  rewrite !Hm. repeat split.
Defined.

(** ** The namespace is made of copies *)

Lemma ids_cons k v rest :
  ids (VDict ((k, v) :: rest)) = ids v ++ ids (VDict rest).
Proof. reflexivity. Qed.

Lemma store_get_set {A : Type} (l l0 : loc) (x : A) (h : list (loc * A)) :
  Store.get l0 (Store.set l x h)
  = if Nat.eqb l0 l then Some x else Store.get l0 h.
Proof.
  destruct (Nat.eqb l0 l) eqn:E.
  - apply Nat.eqb_eq in E. subst. apply store_get_set_same.
  - apply Nat.eqb_neq in E. now apply store_get_set_other.
Qed.

(** The addresses a deep copy uses: those the memo gives, or new ones,
    taken in order from the next free address. *)
Lemma deepcopy_ids x :
  forall memo n,
    n <= snd (deepcopy x memo n)
    /\ (forall i, In i (ids (fst (fst (deepcopy x memo n)))) ->
                  (exists j, Store.get j memo = Some i)
                  \/ n <= i < snd (deepcopy x memo n))
    /\ (forall j i, Store.get j (snd (fst (deepcopy x memo n))) = Some i ->
                    Store.get j memo = Some i
                    \/ n <= i < snd (deepcopy x memo n)).
Proof.
  induction x as [id c | items IH] using value_tree_ind; intros memo n.
  - simpl. destruct (Store.get id memo) as [id' |] eqn:E; cbn [fst snd ids].
    + split; [lia |]. split.
      * intros i [<- | []]. left. now exists id.
      * intros j i H. now left.
    + split; [lia |]. split.
      * intros i [<- | []]. right. lia.
      * intros j i H. rewrite store_get_set in H.
        destruct (Nat.eqb j id); [injection H as <-; right; lia | now left].
  - revert memo n. induction items as [| [k v] rest IHrest]; intros memo n.
    + cbn. split; [lia |]. split; [intros i [] | intros j i H; now left].
    + inversion IH as [| ? ? Hv Hrest]; subst. cbn [snd] in Hv.
      specialize (IHrest Hrest). rewrite deepcopy_cons.
      specialize (Hv memo n).
      destruct (deepcopy v memo n) as [[v' memo1] n1]. cbn [fst snd] in Hv.
      specialize (IHrest memo1 n1).
      destruct (deepcopy_is_dict rest memo1 n1) as [d' Hd'].
      destruct (deepcopy (VDict rest) memo1 n1) as [[r' memo2] n2].
      cbn [fst snd] in *. subst r'. cbn [items_of].
      destruct Hv as [Hn1 [Hv1 Hv2]]. destruct IHrest as [Hn2 [Hr1 Hr2]].
      split; [lia |]. split.
      * intros i Hi. rewrite ids_cons in Hi. apply in_app_or in Hi.
        destruct Hi as [Hi | Hi].
        -- destruct (Hv1 i Hi) as [H | H]; [now left | right; lia].
        -- destruct (Hr1 i Hi) as [[j H] | H]; [| right; lia].
           destruct (Hv2 j i H) as [H' | H']; [left; now exists j | right; lia].
      * intros j i H. destruct (Hr2 j i H) as [H' | H']; [| right; lia].
        destruct (Hv2 j i H') as [H'' | H'']; [now left | right; lia].
Qed.

Lemma ids_in_value d v :
  In v (Dict.values d) -> incl (ids v) (ids (VDict d)).
Proof.
  intros Hin i Hi. unfold Dict.values in Hin. apply in_map_iff in Hin.
  destruct Hin as [kv [<- Hkv]]. cbn [ids]. apply in_flat_map. now exists kv.
Qed.

Lemma ids_set k v d :
  incl (ids (VDict (Dict.set k v d))) (ids v ++ ids (VDict d)).
Proof.
  induction d as [| [k' v'] rest IH]; cbn [Dict.set].
  - rewrite ids_cons. apply incl_refl.
  - destruct (String.eqb k k').
    + rewrite !ids_cons. intros i Hi. apply in_app_or in Hi.
      apply in_or_app. destruct Hi as [Hi | Hi]; [now left |].
      right. apply in_or_app. now right.
    + rewrite !ids_cons. intros i Hi. apply in_app_or in Hi.
      destruct Hi as [Hi | Hi].
      * apply in_or_app. right. apply in_or_app. now left.
      * apply IH in Hi. apply in_app_or in Hi. apply in_or_app.
        destruct Hi as [Hi | Hi]; [now left |].
        right. apply in_or_app. now right.
Qed.

Lemma ids_get k v d : Dict.get k d = Some v -> incl (ids v) (ids (VDict d)).
Proof.
  intros H. apply ids_in_value. apply get_some_in in H.
  unfold Dict.values. apply in_map_iff. now exists (k, v).
Qed.

Lemma ids_add_aliases acc v :
  incl (ids (VDict (add_aliases acc v))) (ids v ++ ids (VDict acc)).
Proof.
  destruct v as [id c | items]; cbn [add_aliases].
  - generalize acc. induction (aliases c) as [| a als IH]; intros acc0;
      cbn [fold_left].
    + apply incl_appr, incl_refl.
    + intros i Hi. apply IH in Hi. apply in_app_or in Hi.
      destruct Hi as [Hi | Hi]; [apply in_or_app; now left |].
      now apply ids_set in Hi.
  - intros i Hi. apply in_or_app. now right.
Qed.

Lemma ids_expand d : incl (ids (VDict (expand_aliases d))) (ids (VDict d)).
Proof.
  unfold expand_aliases.
  assert (forall vs acc,
             (forall v, In v vs -> incl (ids v) (ids (VDict d))) ->
             incl (ids (VDict acc)) (ids (VDict d)) ->
             incl (ids (VDict (fold_left add_aliases vs acc)))
               (ids (VDict d))) as H.
  { induction vs as [| v rest IH]; intros acc Hvs Hacc; [exact Hacc |].
    cbn [fold_left]. apply IH.
    - intros v' Hv'. apply Hvs. now right.
    - intros i Hi. apply ids_add_aliases in Hi. apply in_app_or in Hi.
      destruct Hi as [Hi | Hi]; [| now apply Hacc].
      apply (Hvs v); [now left | exact Hi]. }
  apply H; [intros v Hv; now apply ids_in_value | apply incl_refl].
Qed.

(** The addresses of an alias-expanded copy are new. *)
Lemma build_aliases_ids cmds n :
  n <= snd (build_aliases cmds n)
  /\ forall i, In i (ids (VDict (fst (build_aliases cmds n)))) ->
               n <= i < snd (build_aliases cmds n).
Proof.
  unfold build_aliases.
  destruct (deepcopy_ids (VDict cmds) [] n) as [Hn [Hids _]].
  destruct (deepcopy_is_dict cmds [] n) as [d' Hd'].
  destruct (deepcopy (VDict cmds) [] n) as [[copy memo] n'].
  cbn [fst snd] in *. subst copy. cbn [items_of]. split; [exact Hn |].
  intros i Hi. apply ids_expand in Hi.
  destruct (Hids i Hi) as [[j H] | H]; [discriminate | exact H].
Qed.

(** A merge holds no Command but those of the two trees. *)
Lemma deep_merge_ids b :
  forall a, incl (ids (fst (deep_merge a b))) (ids a ++ ids b).
Proof.
  induction b as [id c | items IH] using value_tree_ind; intros a.
  - intros i Hi. apply in_or_app. now left.
  - revert a. induction items as [| [k v] rest IHrest]; intros a.
    + intros i Hi. apply in_or_app. now left.
    + inversion IH as [| ? ? Hv Hrest]; subst. cbn [snd] in Hv.
      specialize (IHrest Hrest).
      destruct a as [ida ca | da].
      { destruct v; intros i Hi; apply in_or_app; now left. }
      rewrite ids_cons. destruct v as [id c | bv].
      * rewrite deep_merge_cons_cmd. intros i Hi. apply IHrest in Hi.
        apply in_app_or in Hi. destruct Hi as [Hi | Hi].
        -- apply ids_set in Hi. apply in_app_or in Hi.
           destruct Hi as [Hi | Hi]; apply in_or_app;
             [right; apply in_or_app; now left | now left].
        -- apply in_or_app. right. apply in_or_app. now right.
      * rewrite deep_merge_cons_dict.
        set (da1 := Dict.setdefault k (VDict []) da).
        assert (incl (ids (VDict da1)) (ids (VDict da))) as Hda1.
        { unfold da1, Dict.setdefault. destruct (Dict.get k da).
          - apply incl_refl.
          - intros i Hi. apply ids_set in Hi. exact Hi. }
        assert (incl (ids match Dict.get k da1 with
                          | Some s => s
                          | None => VDict []
                          end) (ids (VDict da))) as Hsub.
        { destruct (Dict.get k da1) eqn:E; [| intros i []].
          intros i Hi. apply Hda1. exact (ids_get _ _ _ E i Hi). }
        specialize (Hv match Dict.get k da1 with
                       | Some s => s
                       | None => VDict []
                       end).
        destruct (deep_merge
                    match Dict.get k da1 with
                    | Some s => s
                    | None => VDict []
                    end (VDict bv)) as [sub' [x |]]; cbn [fst] in *.
        -- intros i Hi. apply ids_set in Hi. apply in_app_or in Hi.
           destruct Hi as [Hi | Hi].
           ++ apply Hv in Hi. apply in_app_or in Hi. apply in_or_app.
              destruct Hi as [Hi | Hi]; [left; now apply Hsub |].
              right. apply in_or_app. now left.
           ++ apply in_or_app. left. now apply Hda1.
        -- intros i Hi. apply IHrest in Hi. apply in_app_or in Hi.
           destruct Hi as [Hi | Hi].
           ++ apply ids_set in Hi. apply in_app_or in Hi.
              destruct Hi as [Hi | Hi].
              ** apply Hv in Hi. apply in_app_or in Hi. apply in_or_app.
                 destruct Hi as [Hi | Hi]; [left; now apply Hsub |].
                 right. apply in_or_app. now left.
              ** apply in_or_app. left. now apply Hda1.
           ++ apply in_or_app. right. apply in_or_app. now right.
Qed.

Lemma merge_all_ids (vs : list dict) :
  forall acc n,
    n <= snd (merge_all vs acc n)
    /\ forall i, In i (ids (fst (fst (merge_all vs acc n)))) ->
                 In i (ids acc) \/ n <= i < snd (merge_all vs acc n).
Proof.
  induction vs as [| v rest IH]; intros acc n.
  - cbn. split; [lia | intros i Hi; now left].
  - rewrite merge_all_cons.
    destruct (build_aliases_ids v n) as [Hn Hb].
    pose proof (deep_merge_ids (VDict (fst (build_aliases v n))) acc) as Hm.
    destruct (deep_merge acc (VDict (fst (build_aliases v n)))) as [acc' [e |]];
      cbn [fst snd] in *.
    + split; [exact Hn |]. intros i Hi. apply Hm in Hi. apply in_app_or in Hi.
      destruct Hi as [Hi | Hi]; [now left | right; now apply Hb].
    + destruct (IH acc' (snd (build_aliases v n))) as [Hn' Hids].
      split; [lia |]. intros i Hi.
      destruct (Hids i Hi) as [H | H]; [| right; lia].
      apply Hm in H. apply in_app_or in H.
      destruct H as [H | H]; [now left |].
      right. specialize (Hb i H). lia.
Qed.

(** The addresses of the namespace [refresh] leaves are those allocated
    during the rebuild. *)
Lemma refresh_ids (w : World) :
  forall i,
    In i (ids (VDict (__cmds (session (snd (refresh w)))))) ->
    next_id w <= i < next_id (snd (refresh w)).
Proof.
  destruct (refresh_fields w) as [_ [_ [_ [_ [Hmerged [Hn _]]]]]].
  destruct (merge_all_ids (Dict.values (cmds (session w))) (VDict [])
              (next_id w)) as [_ Hids].
  rewrite <- Hmerged, <- Hn in Hids.
  intros i Hi. destruct (Hids i Hi) as [[] | H]. exact H.
Qed.

(** X15.  In a session whose Command objects all live below the next free
    address, whatever [refresh] leaves in the merged namespace, after a
    rebuild that succeeded or raised, is a copy: every Command object of the
    namespace lives at an address allocated during this rebuild, so none is
    an object of a registered collection or of the previous namespace; and
    the Command objects of the session left again live below the next free
    address. *)
Theorem namespace_of_copies (w : World) :
  allocated w = true ->
  Forall (fun i => next_id w <= i < next_id (snd (refresh w))
                   /\ ~ In i (collection_ids (cmds (session (snd (refresh w)))))
                   /\ ~ In i (ids (VDict (__cmds (session w)))))
    (ids (VDict (__cmds (session (snd (refresh w))))))
  /\ allocated (snd (refresh w)) = true.
Proof.
  intros Halloc. unfold allocated in Halloc.
  apply andb_true_iff in Halloc. destruct Halloc as [Hcoll Hns].
  rewrite forallb_forall in Hcoll, Hns.
  destruct (refresh_fields w) as [Hcmds [_ [_ [_ [_ [Hn _]]]]]].
  destruct (merge_all_ids (Dict.values (cmds (session w))) (VDict [])
              (next_id w)) as [Hle _].
  rewrite <- Hn in Hle.
  pose proof (refresh_ids w) as Hnew.
  split.
  - apply Forall_forall. intros i Hi. specialize (Hnew i Hi).
    split; [exact Hnew |]. rewrite Hcmds. split.
    + intros Hin. apply Hcoll in Hin. apply Nat.ltb_lt in Hin. lia.
    + intros Hin. apply Hns in Hin. apply Nat.ltb_lt in Hin. lia.
  - unfold allocated. apply andb_true_iff. rewrite !forallb_forall. split.
    + intros i Hi. rewrite Hcmds in Hi. apply Hcoll in Hi.
      apply Nat.ltb_lt in Hi. apply Nat.ltb_lt. lia.
    + intros i Hi. apply Hnew in Hi. apply Nat.ltb_lt. lia.
Qed.

Lemma namespace_of_copies_witness :
  allocated Demo.w_started = true
  /\ collection_ids (cmds (session Demo.w_started)) = [1; 2; 3; 4; 9]
  /\ ids (VDict (__cmds (session Demo.w_started)))
     = [104; 105; 106; 107; 104; 105; 105; 108]
  /\ Forall (fun i =>
               next_id Demo.w_started <= i
               < next_id (snd (refresh Demo.w_started))
               /\ ~ In i (collection_ids
                            (cmds (session (snd (refresh Demo.w_started)))))
               /\ ~ In i (ids (VDict (__cmds (session Demo.w_started)))))
       (ids (VDict (__cmds (session (snd (refresh Demo.w_started))))))
  /\ allocated (snd (refresh Demo.w_started)) = true.
Proof.
  split; [reflexivity | split; [reflexivity | split; [reflexivity |]]].
  apply (namespace_of_copies Demo.w_started). reflexivity.
Defined.

(** ** Aliases of top-level Commands, after the rebuild *)




(** ** A session with one collection *)

Lemma set_absent {A : Type} (k : string) (v : A) (d : list (string * A)) :
  ~ In k (Dict.keys d) -> Dict.set k v d = d ++ [(k, v)].
Proof.
  induction d as [| [k' v'] rest IH]; simpl; intros Hn; [reflexivity |].
  destruct (String.eqb k k') eqn:E.
  - apply String.eqb_eq in E. subst. tauto.
  - rewrite IH; [reflexivity | tauto].
Qed.

Lemma set_last {A : Type} (k : string) (v v0 : A) (d : list (string * A)) :
  ~ In k (Dict.keys d) -> Dict.set k v (d ++ [(k, v0)]) = d ++ [(k, v)].
Proof.
  induction d as [| [k' v'] rest IH]; simpl; intros Hn.
  - now rewrite String.eqb_refl.
  - destruct (String.eqb k k') eqn:E.
    + apply String.eqb_eq in E. subst. tauto.
    + rewrite IH; [reflexivity | tauto].
Qed.

Lemma get_app_last {A : Type} (k : string) (v : A) (d : list (string * A)) :
  ~ In k (Dict.keys d) -> Dict.get k (d ++ [(k, v)]) = Some v.
Proof.
  induction d as [| [k' v'] rest IH]; simpl; intros Hn.
  - now rewrite String.eqb_refl.
  - destruct (String.eqb k k') eqn:E.
    + apply String.eqb_eq in E. subst. tauto.
    + apply IH. tauto.
Qed.

(** Merging a tree whose keys are new appends its entries, sub-trees
    included, in their order. *)
Lemma deep_merge_append b :
  forall items,
    b = VDict items ->
    unique_keys b = true ->
    forall da,
      (forall k, In k (Dict.keys items) -> ~ In k (Dict.keys da)) ->
      deep_merge (VDict da) b = (VDict (da ++ items), None).
Proof.
  induction b as [id c | items0 IH] using value_tree_ind;
    intros items Hb Hu da Hnew; [discriminate |].
  injection Hb as <-. revert da Hnew Hu.
  induction items0 as [| [k v] rest IHrest]; intros da Hnew Hu.
  - now rewrite app_nil_r.
  - inversion IH as [| ? ? Hv Hrest]; subst. cbn [snd] in Hv.
    specialize (IHrest Hrest).
    apply unique_keys_dict in Hu. destruct Hu as [Hnd Hall].
    simpl in Hnd. inversion Hnd as [| ? ? Hk Hndrest]; subst.
    inversion Hall as [| ? ? Huv Hallrest]; subst. cbn [snd] in Huv.
    assert (~ In k (Dict.keys da)) as Hkda by (apply Hnew; now left).
    assert (unique_keys (VDict rest) = true) as Hurest
        by (apply unique_keys_dict; auto).
    assert (forall v', deep_merge (VDict (da ++ [(k, v')])) (VDict rest)
                       = (VDict (da ++ (k, v') :: rest), None)) as Hnext.
    { intros v'. rewrite (IHrest (da ++ [(k, v')])); [| | exact Hurest].
      - now rewrite <- app_assoc.
      - intros k' Hk' Hin. unfold Dict.keys in Hin. rewrite map_app in Hin.
        apply in_app_or in Hin. destruct Hin as [Hin | [<- | []]].
        + apply (Hnew k'); [now right | exact Hin].
        + now apply Hk. }
    destruct v as [id c | bv].
    + rewrite deep_merge_cons_cmd, (set_absent _ _ _ Hkda). apply Hnext.
    + rewrite deep_merge_cons_dict.
      assert (Dict.setdefault k (VDict []) da = da ++ [(k, VDict [])]) as ->.
      { unfold Dict.setdefault.
        assert (Dict.get k da = None) as -> by now apply get_none_keys.
        now apply set_absent. }
      rewrite get_app_last by exact Hkda.
      rewrite (Hv bv eq_refl Huv []) by (intros k' _ []).
      cbn [app]. rewrite (set_last _ _ _ _ Hkda). apply Hnext.
Qed.

(** X16.  Creating a session from one collection whose dictionaries have
    distinct keys succeeds, and the merged namespace is the alias-expanded
    copy of that collection as it stands: the same keys in the same order,
    leading to copies of the same Commands. *)
Theorem init_single (w : World) (c : dict) :
  unique_keys (VDict c) = true ->
  fst (init c w) = Ret tt
  /\ cmds (session (snd (init c w))) = [("__init__", c)]
  /\ __cmds (session (snd (init c w))) = fst (build_aliases c (next_id w))
  /\ erase_items (__cmds (session (snd (init c w))))
     = erase_items (expand_aliases c).
Proof.
  intros Hu. unfold init.
  set (wx := set_session (set_cmds [("__init__", c)] (session w)) w).
  destruct (refresh_fields wx) as [Hc [_ [_ [_ [Hns [_ Hout]]]]]].
  assert (merge_all (Dict.values (cmds (session wx))) (VDict []) (next_id wx)
          = (VDict (fst (build_aliases c (next_id w))), None,
             snd (build_aliases c (next_id w)))) as Hmerge.
  { cbn [wx session set_session cmds set_cmds Dict.values map snd next_id].
    rewrite merge_all_cons.
    rewrite (deep_merge_append (VDict (fst (build_aliases c (next_id w))))
               _ eq_refl (unique_keys_build c (next_id w) Hu) [])
      by (intros k _ []).
    reflexivity. }
  rewrite Hmerge in Hns, Hout. cbn [fst snd] in Hns, Hout.
  injection Hns as Hns. destruct Hout as [Hret _].
  split; [exact Hret |]. split; [exact Hc |]. split; [exact Hns |].
  rewrite Hns. apply build_aliases_erase.
Qed.

Lemma init_single_witness :
  unique_keys (VDict Sample.core) = true
  /\ fst (init Sample.core Sample.blank) = Ret tt
  /\ erase_items (__cmds (session (snd (init Sample.core Sample.blank))))
     = erase_items (expand_aliases Sample.core).
Proof.
  split; [reflexivity |].
  destruct (init_single Sample.blank Sample.core eq_refl)
    as [Hret [_ [_ Herase]]].
  split; [exact Hret | exact Herase].
Defined.

(** ** Commands of the collection registered last *)

Lemma lookup_path_erase (path : list string) :
  forall d,
    lookup_path (erase d) path = option_map erase (lookup_path d path).
Proof.
  induction path as [| k q IH]; intros d; [reflexivity |].
  destruct d as [id c | items]; [reflexivity |].
  cbn [erase lookup_path]. fold (erase_items items).
  rewrite erase_items_get.
  destruct (Dict.get k items) as [v |]; [apply IH | reflexivity].
Qed.

(** After a successful merge every Command of the merged-in tree is found
    under its path, at any depth. *)
Lemma deep_merge_later_paths (path : list string) :
  forall (da b : dict) (a' : value) id c,
    unique_keys (VDict b) = true ->
    deep_merge (VDict da) (VDict b) = (a', None) ->
    lookup_path (VDict b) path = Some (VCmd id c) ->
    lookup_path a' path = Some (VCmd id c).
Proof.
  induction path as [| x q IH]; intros da b a' id c Hu Hmerge Hpath;
    [discriminate |].
  pose proof Hu as Hnd. apply unique_keys_dict in Hnd. destruct Hnd as [Hnd _].
  destruct (deep_merge_top _ _ _ Hnd Hmerge) as [da' [-> Htop]].
  specialize (Htop x). cbn [lookup_path] in *.
  destruct (Dict.get x b) as [[id0 c0 | bv] |] eqn:Eb; [| | discriminate].
  - now rewrite Htop.
  - destruct Htop as [sub' [Hsub Hget]]. rewrite Hget.
    pose proof (unique_keys_get _ _ _ Hu Eb) as Hubv.
    destruct (Dict.get x da) as [[ida ca | ax] |].
    + apply deep_merge_into_command in Hsub. destruct Hsub as [-> _].
      destruct q; discriminate.
    + exact (IH ax bv sub' id c Hubv Hsub Hpath).
    + exact (IH [] bv sub' id c Hubv Hsub Hpath).
Qed.

(** X17.  After a successful rebuild, every Command of the collection
    registered last is reachable: a path of keys that leads to a Command in
    the alias expansion of that collection, at whatever depth, leads to a
    copy of that Command in the merged namespace, whatever the earlier
    collections hold. *)
Theorem last_collection_reachable (w w' : World) (r : list (string * dict))
    (coll_name : string) (coll : dict) (path : list string) (id : loc)
    (c : Command) :
  cmds (session w) = r ++ [(coll_name, coll)] ->
  unique_keys (VDict coll) = true ->
  refresh w = (Ret tt, w') ->
  lookup_path (VDict (expand_aliases coll)) path = Some (VCmd id c) ->
  exists id',
    lookup_path (VDict (__cmds (session w'))) path = Some (VCmd id' c).
Proof.
  intros Hreg Hu Hrefresh Hpath.
  apply refresh_ok in Hrefresh.
  destruct Hrefresh as [da [n' [Hmerge [Hns _]]]].
  rewrite Hreg in Hmerge. unfold Dict.values in Hmerge.
  rewrite map_app in Hmerge. fold (Dict.values r) in Hmerge.
  rewrite merge_all_app in Hmerge.
  destruct (merge_all_is_dict (Dict.values r) [] (next_id w)) as [a1 Ha1].
  destruct (merge_all (Dict.values r) (VDict []) (next_id w))
    as [[acc1 [e |]] n1]; [discriminate |].
  cbn [fst] in Ha1. subst acc1. cbn [map snd] in Hmerge.
  rewrite merge_all_cons in Hmerge.
  destruct (deep_merge (VDict a1) (VDict (fst (build_aliases coll n1))))
    as [acc [e |]] eqn:Hstep; [discriminate |].
  injection Hmerge as -> _.
  assert (exists id',
             lookup_path (VDict (fst (build_aliases coll n1))) path
             = Some (VCmd id' c)) as [id' Hlater].
  { pose proof (lookup_path_erase path (VDict (fst (build_aliases coll n1))))
      as H.
    rewrite erase_dict, build_aliases_erase, <- erase_dict in H.
    rewrite lookup_path_erase, Hpath in H. cbn [option_map erase] in H.
    destruct (lookup_path (VDict (fst (build_aliases coll n1))) path)
      as [v |]; [| discriminate].
    cbn [option_map] in H. injection H as H. symmetry in H.
    apply erase_command_inv in H. destruct H as [id' ->]. now exists id'. }
  exists id'. rewrite Hns.
  exact (deep_merge_later_paths path _ _ _ _ _
           (unique_keys_build coll n1 Hu) Hstep Hlater).
Qed.

Lemma last_collection_reachable_witness :
  cmds (session Sample.w_plugin)
  = [("__init__", Sample.core)] ++ [("plugin", Sample.plugin)]
  /\ unique_keys (VDict Sample.plugin) = true
  /\ refresh Sample.w_plugin = (Ret tt, Sample.after refresh Sample.w_plugin)
  /\ lookup_path (VDict (expand_aliases Sample.plugin)) ["plug"; "run"]
     = Some (VCmd 9 Sample.Y)
  /\ exists id',
       lookup_path
         (VDict (__cmds (session (Sample.after refresh Sample.w_plugin))))
         ["plug"; "run"] = Some (VCmd id' Sample.Y).
Proof.
  split; [reflexivity | split; [reflexivity | split; [reflexivity |]]].
  split; [reflexivity |].
  apply (last_collection_reachable Sample.w_plugin
           (Sample.after refresh Sample.w_plugin)
           [("__init__", Sample.core)] "plugin" Sample.plugin
           ["plug"; "run"] 9 Sample.Y); reflexivity.
Defined.

(** ** [hans/io.py]: rulers and centred text *)

Lemma length_append (a b : string) :
  String.length (a ++ b) = String.length a + String.length b.
Proof. induction a as [| c a IH]; simpl; [reflexivity | now rewrite IH]. Qed.

Lemma chars_append (a b : string) :
  list_ascii_of_string (a ++ b)
  = list_ascii_of_string a ++ list_ascii_of_string b.
Proof. induction a as [| c a IH]; simpl; [reflexivity | now rewrite IH]. Qed.

Lemma length_repeat_str (c : string) (n : nat) :
  String.length (repeat_str c n) = String.length c * n.
Proof.
  induction n as [| n IH]; simpl; [lia |].
  rewrite length_append, IH. lia.
Qed.

Lemma split_lines_nonempty (s : string) : split_lines s <> [].
Proof.
  destruct s as [| c rest]; simpl; [discriminate |].
  destruct (Ascii.eqb c newline); [discriminate |].
  destruct (split_lines rest); discriminate.
Qed.

Lemma join_cons (sep x : string) (l : list string) :
  l <> [] -> join sep (x :: l) = (x ++ sep ++ join sep l)%string.
Proof. destruct l; [contradiction | reflexivity]. Qed.

(** Joining the lines of a text with newlines gives the text back. *)
Lemma join_split_lines (s : string) :
  join (String newline EmptyString) (split_lines s) = s.
Proof.
  induction s as [| c rest IH]; [reflexivity |].
  cbn [split_lines]. destruct (Ascii.eqb c newline) eqn:E.
  - apply Ascii.eqb_eq in E. subst c.
    rewrite join_cons by apply split_lines_nonempty.
    now rewrite IH.
  - pose proof (split_lines_nonempty rest) as Hne.
    destruct (split_lines rest) as [| l ls]; [contradiction |].
    destruct ls as [| l' ls'].
    + cbn in *. now rewrite IH.
    + rewrite join_cons by discriminate.
      rewrite join_cons in IH by discriminate.
      rewrite <- IH. reflexivity.
Qed.

Lemma split_lines_line (l : string) :
  ~ In newline (list_ascii_of_string l) -> split_lines l = [l].
Proof.
  induction l as [| c rest IH]; [reflexivity |].
  cbn [split_lines list_ascii_of_string]. intros Hn.
  destruct (Ascii.eqb c newline) eqn:E.
  - apply Ascii.eqb_eq in E. subst c. exfalso. apply Hn. now left.
  - rewrite IH; [reflexivity |]. intros Hin. apply Hn. now right.
Qed.

Lemma split_lines_append (l rest : string) :
  ~ In newline (list_ascii_of_string l) ->
  split_lines (l ++ String newline rest) = l :: split_lines rest.
Proof.
  induction l as [| c l' IH]; intros Hn.
  - cbn [append split_lines]. now rewrite Ascii.eqb_refl.
  - cbn [append split_lines].
    destruct (Ascii.eqb c newline) eqn:E.
    + apply Ascii.eqb_eq in E. subst c. exfalso. apply Hn. now left.
    + rewrite IH; [reflexivity |]. intros Hin. apply Hn. now right.
Qed.

Lemma split_lines_no_newline (s : string) :
  Forall (fun l => ~ In newline (list_ascii_of_string l)) (split_lines s).
Proof.
  induction s as [| c rest IH]; [constructor; [intros [] | constructor] |].
  cbn [split_lines]. destruct (Ascii.eqb c newline) eqn:E.
  - constructor; [intros [] | exact IH].
  - destruct (split_lines rest) as [| l ls].
    + constructor; [| constructor]. simpl. intros [H | []].
      subst c. now rewrite Ascii.eqb_refl in E.
    + inversion IH as [| ? ? Hl Hls]; subst. constructor; [| exact Hls].
      simpl. intros [H | H]; [| now apply Hl].
      subst c. now rewrite Ascii.eqb_refl in E.
Qed.

(** Splitting a text joined from lines without newlines gives the lines
    back. *)
Lemma split_lines_join (ls : list string) :
  ls <> [] ->
  Forall (fun l => ~ In newline (list_ascii_of_string l)) ls ->
  split_lines (join (String newline EmptyString) ls) = ls.
Proof.
  induction ls as [| l rest IH]; intros Hne Hall; [contradiction |].
  inversion Hall as [| ? ? Hl Hrest]; subst.
  destruct rest as [| l' rest'].
  - cbn. now apply split_lines_line.
  - rewrite join_cons by discriminate. cbn [append].
    rewrite split_lines_append by exact Hl.
    rewrite IH; [reflexivity | discriminate | exact Hrest].
Qed.

Lemma repeat_space_no_newline (n : nat) :
  ~ In newline (list_ascii_of_string (repeat_str " " n)).
Proof.
  induction n as [| n IH]; simpl; [tauto |].
  intros [H | H]; [discriminate | now apply IH].
Qed.

(** X19.  Centring keeps the lines of a text: the centred text has as many
    lines as the text, each of them the original line between two equal
    runs of spaces, as long as half the width minus half the length of the
    longest line (and empty when that is not positive). *)
Theorem center_text_lines (s : string) (width : option Z) (columns : Z) :
  split_lines (center_text s width columns)
  = map (fun l =>
           (str_mul " " (effective_width width columns / 2
                         - max_len (split_lines s) / 2)
            ++ l
            ++ str_mul " " (effective_width width columns / 2
                            - max_len (split_lines s) / 2))%string)
      (split_lines s).
Proof.
  unfold center_text. apply split_lines_join.
  - pose proof (split_lines_nonempty s) as Hne.
    destruct (split_lines s); [contradiction | discriminate].
  - apply Forall_forall. intros l' Hin. apply in_map_iff in Hin.
    destruct Hin as [l [<- Hl]].
    pose proof (split_lines_no_newline s) as Hall.
    rewrite Forall_forall in Hall. specialize (Hall l Hl).
    rewrite !chars_append. intros Hin.
    apply in_app_or in Hin. destruct Hin as [Hin | Hin].
    + exact (repeat_space_no_newline _ Hin).
    + apply in_app_or in Hin. destruct Hin as [Hin | Hin];
        [now apply Hall | exact (repeat_space_no_newline _ Hin)].
Qed.

Lemma append_empty_r (l : string) : (l ++ EmptyString)%string = l.
Proof. induction l as [| c l IH]; simpl; [reflexivity | now rewrite IH]. Qed.

(** X20.  A text whose longest line is too long to be centred is returned
    unchanged: when half the width does not exceed half the length of the
    longest line, [center_text] is the identity. *)
Theorem center_text_narrow (s : string) (width : option Z) (columns : Z) :
  (effective_width width columns / 2 <= max_len (split_lines s) / 2)%Z ->
  center_text s width columns = s.
Proof.
  intros Hle. unfold center_text, str_mul.
  replace (Z.to_nat (effective_width width columns / 2
                     - max_len (split_lines s) / 2)) with 0 by lia.
  cbn [repeat_str append].
  rewrite <- (join_split_lines s) at 2. f_equal.
  clear Hle. induction (split_lines s) as [| l ls IH]; [reflexivity |].
  cbn [map]. rewrite IH. f_equal. apply append_empty_r.
Qed.

Lemma center_text_narrow_witness :
  (effective_width (Some 10%Z) 80
   / 2 <= max_len (split_lines "a long first line") / 2)%Z
  /\ center_text "a long first line" (Some 10%Z) 80 = "a long first line".
Proof.
  split; [vm_compute; discriminate |].
  apply (center_text_narrow "a long first line" (Some 10%Z) 80%Z).
  vm_compute. discriminate.
Defined.

(** ** Removing twice *)

Lemma get_pop_same {A : Type} (k : string) (d : list (string * A)) :
  NoDup (Dict.keys d) -> Dict.get k (Dict.pop k d) = None.
Proof.
  induction d as [| [k' v'] rest IH]; simpl; intros Hnd; [reflexivity |].
  inversion Hnd as [| ? ? Hnotin Hrest]; subst.
  destruct (String.eqb k k') eqn:E.
  - apply String.eqb_eq in E. subst. now apply get_none_keys.
  - simpl. rewrite E. now apply IH.
Qed.

Lemma get_pop_other {A : Type} (k x : string) (d : list (string * A)) :
  x <> k -> Dict.get x (Dict.pop k d) = Dict.get x d.
Proof.
  intros Hne. induction d as [| [k' v'] rest IH]; simpl; [reflexivity |].
  destruct (String.eqb k k') eqn:E.
  - apply String.eqb_eq in E. subst k'.
    apply String.eqb_neq in Hne. now rewrite Hne.
  - simpl. now rewrite IH.
Qed.

Lemma keys_pop_nodup {A : Type} (k : string) (d : list (string * A)) :
  NoDup (Dict.keys d) -> NoDup (Dict.keys (Dict.pop k d)).
Proof.
  induction d as [| [k' v'] rest IH]; simpl; intros Hnd; [constructor |].
  inversion Hnd as [| ? ? Hnotin Hrest]; subst.
  destruct (String.eqb k k'); [assumption |].
  simpl. constructor; [| now apply IH].
  intros Hin. apply Hnotin. unfold Dict.keys in *.
  apply in_map_iff in Hin. destruct Hin as [e [<- He]].
  apply in_map_iff. exists e. split; [reflexivity |].
  now apply pop_incl in He.
Qed.

Lemma remove_cmds (w : World) (coll_name : string) (c : dict) :
  Dict.get coll_name (cmds (session w)) = Some c ->
  cmds (session (snd (remove coll_name w)))
  = Dict.pop coll_name (cmds (session w)).
Proof.
  intros Hreg. unfold remove. rewrite Hreg.
  destruct (refresh_fields
              (set_session
                 (set_cmds (Dict.pop coll_name (cmds (session w)))
                    (session w)) w)) as [Hc _].
  now rewrite Hc.
Qed.

(** X21.  Removal is not idempotent.  Once a registered collection has been
    removed, whether or not the rebuild that follows succeeds, its key is
    no longer registered, the other keys lead to what they led to, and
    removing the same key again raises [KeyError] and changes nothing. *)
Theorem remove_twice (w : World) (coll_name : string) (c : dict) :
  nodupb (Dict.keys (cmds (session w))) = true ->
  Dict.get coll_name (cmds (session w)) = Some c ->
  Dict.get coll_name (cmds (session (snd (remove coll_name w)))) = None
  /\ (forall k, k <> coll_name ->
                Dict.get k (cmds (session (snd (remove coll_name w))))
                = Dict.get k (cmds (session w)))
  /\ nodupb (Dict.keys (cmds (session (snd (remove coll_name w))))) = true
  /\ remove coll_name (snd (remove coll_name w))
     = (Raise (KeyError coll_name), snd (remove coll_name w)).
Proof.
  intros Hnd Hreg. apply nodupb_NoDup in Hnd.
  pose proof (remove_cmds w coll_name c Hreg) as Hc.
  assert (Dict.get coll_name (cmds (session (snd (remove coll_name w))))
          = None) as Hgone
      by (rewrite Hc; now apply get_pop_same).
  split; [exact Hgone |]. split; [| split].
  - intros k Hk. rewrite Hc. now apply get_pop_other.
  - apply nodupb_NoDup. rewrite Hc. now apply keys_pop_nodup.
  - unfold remove at 1. now rewrite Hgone.
Qed.

Lemma remove_twice_witness :
  nodupb (Dict.keys (cmds (session Sample.w_plugin))) = true
  /\ Dict.get "plugin" (cmds (session Sample.w_plugin)) = Some Sample.plugin
  /\ fst (remove "plugin" Sample.w_plugin) = Ret tt
  /\ remove "plugin" (snd (remove "plugin" Sample.w_plugin))
     = (Raise (KeyError "plugin"), snd (remove "plugin" Sample.w_plugin)).
Proof.
  split; [reflexivity | split; [reflexivity | split; [reflexivity |]]].
  destruct (remove_twice Sample.w_plugin "plugin" Sample.plugin
              eq_refl eq_refl) as [_ [_ [_ Hagain]]].
  exact Hagain.
Defined.

(** ** A [KeyError] of the Command itself *)

Section KeyErrorOfCommand.
Context {sem : CommandSemantics} {console : Console}.

(** X22.  [handle] cannot tell a lookup that failed from a Command that
    raised [KeyError]: when the line resolves to an available Command and
    its invocation raises a [KeyError], the Command has been invoked, and
    what is handed to the console is the line "Command not found" followed
    by the line as typed: printed, it is added to the output the Command
    left and [handle] returns normally; refused by the console, its
    exception leaves [handle] with the world the Command left. *)
Theorem handle_command_key_error (w : World) (cmdline : string) (id : loc)
    (c : Command) (rest : list string) :
  parse_loop (VDict (__cmds (session w))) (split (strip cmdline))
  = (Some (VCmd id c), rest) ->
  available c (session w) = true ->
  exists args w1,
    Store.get args (lists w1) = Some rest
    /\ session w1 = session w
    /\ output w1 = output w
    /\ calls w1 = calls w ++ [(c, rest)]
    /\ forall msg w2,
        invoke c args w1 = (Some (KeyError msg), w2) ->
        handle cmdline w
        = match markup_error (io.fe ("Command not found: " ++ cmdline)) with
          | None =>
              (Ret tt,
               set_output
                 (output w2 ++ [io.fe ("Command not found: " ++ cmdline)])
                 w2)
          | Some e => (Raise e, w2)
          end.
Proof.
  intros Hloop Havail.
  pose proof (strip_blank_no_command _ _ _ _ _ Hloop) as Hblank.
  pose proof (getitem_command w cmdline _ _ _ Hloop) as Hget.
  rewrite Havail in Hget. cbn [negb] in Hget.
  set (tokens := split (strip cmdline)) in *.
  set (h0 := Store.set (Store.fresh (lists w)) tokens (lists w)) in *.
  set (a1 := Store.fresh h0) in *.
  set (h1 := Store.set a1 rest h0) in *.
  exists a1, (set_calls (calls w ++ [(c, rest)]) (set_lists h1 w)).
  assert (Store.get a1 h1 = Some rest) as Hrest
      by apply store_get_set_same.
  repeat split; try reflexivity; [exact Hrest |].
  intros msg w2 Hinvoke. unfold handle. rewrite Hblank.
  unfold lookup_and_call, bind. rewrite Hget. cbn [fst snd].
  unfold call. cbn [lists set_lists]. rewrite Hrest.
  cbn [calls set_lists]. rewrite Hinvoke. reflexivity.
Qed.
End KeyErrorOfCommand.

Lemma handle_command_key_error_witness :
  parse_loop (VDict (__cmds (session Demo.w_lookup)))
    (split (strip "lookup door")) = (Some (VCmd 0 Demo.lookup), ["door"])
  /\ @available Demo.sem Demo.lookup (session Demo.w_lookup) = true
  /\ exists w2,
       @handle Demo.sem Sample.console "lookup door" Demo.w_lookup
       = (Ret tt,
          set_output
            (output w2 ++ [io.fe ("Command not found: " ++ "lookup door")])
            w2)
       /\ calls w2 = calls Demo.w_lookup ++ [(Demo.lookup, ["door"])].
Proof.
  split; [reflexivity | split; [reflexivity |]].
  destruct (@handle_command_key_error Demo.sem Sample.console Demo.w_lookup
              "lookup door" 0 Demo.lookup ["door"] eq_refl eq_refl)
    as [args [w1 [_ [_ [_ [Hcalls Hreport]]]]]].
  exists w1. split; [| exact Hcalls].
  apply (Hreport "no such entry"). reflexivity.
Defined.
